(** * Pymon game: world graph, movement, battles and the pet bench

    A shallow embedding of [pymon_game.py].  Python objects live in a store:
    [Location] objects and [Creature]/[Pymon] objects are addressed by
    references (natural numbers), so that two lists holding the same object
    really share it.  Lists and dictionaries owned by a single object
    ([doors], [creatures], [pets], [_inventory], [battles]) are stored by
    value inside their owner.  Methods are computations in a small
    state/exception/output monad.  The only loop of the game that need not
    end, the rounds of a battle, runs on fuel: a run that is still in the
    loop when the fuel is spent answers [OutOfFuel].  [str.lower()], which
    the program applies to what the player types and to the names of items,
    is a parameter of the development: the statements hold for every
    function that lowers ASCII strings as Python does. *)

From stdpp Require Import gmap strings list fin_maps pretty.

Open Scope Z_scope.

(** ** Python values *)

(** Exceptions the program can raise, with the text [str(e)] gives.
    [NoSuchObject] is not a Python exception: it is what the model answers
    when a reference is not in the store, which no Python run can produce. *)
Inductive PyExc :=
  | InvalidDirectionException (direction : string)
  | TypeError (msg : string)
  | AttributeError (msg : string)
  | IndexError (msg : string)
  | ValueError (msg : string)
  | SystemExit (code : Z)
  | NoSuchObject.

(** [InvalidDirectionException.__init__] builds the message. *)
Definition message (e : PyExc) : string :=
  match e with
  | InvalidDirectionException direction =>
      "Error: Direction - " +:+ direction +:+ " does not contain any location"
  | TypeError msg | AttributeError msg | IndexError msg | ValueError msg => msg
  | SystemExit code => pretty code
  | NoSuchObject => ""
  end.

(** [except Exception] catches everything but [SystemExit]. *)
Definition is_Exception (e : PyExc) : bool :=
  match e with
  | SystemExit _ | NoSuchObject => false
  | _ => true
  end.

Inductive Res (A : Type) :=
  | Ok (a : A)
  | Raise (e : PyExc)
  | OutOfFuel.
Arguments Ok {A} a.
Arguments Raise {A} e.
Arguments OutOfFuel {A}.

(** ** Data model *)

Record Item := {
  _name : string;
  _description : string;
  pick_up_items : bool;
  consumable : bool
}.

Record Location := {
  name : string;
  loc_description : string;
  doors : gmap string (option nat);
  creatures : list nat;
  items : list Item
}.

(** One entry of [BattleStats.battles]. *)
Record Battle := {
  timestamp : Z;
  opponent : string;
  wins : Z;
  draws : Z;
  losses : Z
}.

Record BattleStats := { battles : gmap string (list Battle) }.

(** The fields [Pymon.__init__] adds to a [Creature]. *)
Record Pymon := {
  current_location : option nat;
  energy : Z;
  _inventory : list Item;
  pets : list nat;
  track_moves : Z;
  immunity : bool;
  battle_stats : BattleStats
}.

(** A [Creature] object; [as_pymon] is [Some] for instances of the subclass
    [Pymon]. *)
Record Creature := {
  nickname : string;
  description : string;
  location : option nat;
  adoptable : bool;
  as_pymon : option Pymon
}.

Record World := {
  locs : gmap nat Location;
  objs : gmap nat Creature
}.

Definition enery_max : Z := 3.

(** [Location.__init__] with its default arguments for the doors. *)
Definition new_Location (name description : string) : Location :=
  {| name := name; loc_description := description;
     doors := <["south" := None]> (<["east" := None]>
                (<["north" := None]> (<["west" := None]> ∅)));
     creatures := []; items := [] |}.

(** [Pymon.__init__]. *)
Definition new_Pymon (name description : string) (loc : option nat) : Creature :=
  {| nickname := name; description := description; location := loc;
     adoptable := false;
     as_pymon := Some {| current_location := loc; energy := 3;
                         _inventory := []; pets := []; track_moves := 0;
                         immunity := false;
                         battle_stats := {| battles := ∅ |} |} |}.

(** Field assignments. *)
Definition set_doors (f : gmap string (option nat) → gmap string (option nat))
    (l : Location) : Location :=
  {| name := name l; loc_description := loc_description l; doors := f (doors l);
     creatures := creatures l; items := items l |}.

Definition set_creatures (f : list nat → list nat) (l : Location) : Location :=
  {| name := name l; loc_description := loc_description l; doors := doors l;
     creatures := f (creatures l); items := items l |}.

Definition set_current_location (v : option nat) (p : Pymon) : Pymon :=
  {| current_location := v; energy := energy p; _inventory := _inventory p;
     pets := pets p; track_moves := track_moves p; immunity := immunity p;
     battle_stats := battle_stats p |}.

Definition set_energy (v : Z) (p : Pymon) : Pymon :=
  {| current_location := current_location p; energy := v;
     _inventory := _inventory p; pets := pets p; track_moves := track_moves p;
     immunity := immunity p; battle_stats := battle_stats p |}.

Definition set_inventory (v : list Item) (p : Pymon) : Pymon :=
  {| current_location := current_location p; energy := energy p;
     _inventory := v; pets := pets p; track_moves := track_moves p;
     immunity := immunity p; battle_stats := battle_stats p |}.

Definition set_pets (v : list nat) (p : Pymon) : Pymon :=
  {| current_location := current_location p; energy := energy p;
     _inventory := _inventory p; pets := v; track_moves := track_moves p;
     immunity := immunity p; battle_stats := battle_stats p |}.

Definition set_track_moves (v : Z) (p : Pymon) : Pymon :=
  {| current_location := current_location p; energy := energy p;
     _inventory := _inventory p; pets := pets p; track_moves := v;
     immunity := immunity p; battle_stats := battle_stats p |}.

Definition set_battle_stats (v : BattleStats) (p : Pymon) : Pymon :=
  {| current_location := current_location p; energy := energy p;
     _inventory := _inventory p; pets := pets p; track_moves := track_moves p;
     immunity := immunity p; battle_stats := v |}.

Definition on_pymon (f : Pymon → Pymon) (c : Creature) : Creature :=
  {| nickname := nickname c; description := description c;
     location := location c; adoptable := adoptable c;
     as_pymon := f <$> as_pymon c |}.

(** Writing through a reference. *)
Definition upd_loc (l : nat) (f : Location → Location) (w : World) : World :=
  {| locs := alter f l (locs w); objs := objs w |}.

Definition upd_pymon (o : nat) (f : Pymon → Pymon) (w : World) : World :=
  {| locs := locs w; objs := alter (on_pymon f) o (objs w) |}.

Definition pymon_at (w : World) (o : nat) : option Pymon :=
  objs w !! o ≫= as_pymon.

(** ** The monad of methods: store, exceptions, printed lines *)

Record Run (A : Type) := mkRun {
  result : Res A;
  world : World;
  stdout : list string
}.
Arguments mkRun {A} result world stdout.
Arguments result {A} r.
Arguments world {A} r.
Arguments stdout {A} r.

Definition Py (A : Type) : Type := World → Run A.

Definition ret {A} (a : A) : Py A := λ w, mkRun (Ok a) w [].

Definition bind {A B} (m : Py A) (f : A → Py B) : Py B := λ w,
  let r := m w in
  match result r with
  | Ok a => let r' := f a (world r) in
            mkRun (result r') (world r') (stdout r ++ stdout r')
  | Raise e => mkRun (Raise e) (world r) (stdout r)
  | OutOfFuel => mkRun OutOfFuel (world r) (stdout r)
  end.

Global Instance Py_ret : MRet Py := @ret.
Global Instance Py_bind : MBind Py := λ A B f m, bind m f.

Definition raise {A} (e : PyExc) : Py A := λ w, mkRun (Raise e) w [].
Definition print (line : string) : Py unit := λ w, mkRun (Ok tt) w [line].
Definition say (lines : list string) : Py unit := λ w, mkRun (Ok tt) w lines.
Definition modify (f : World → World) : Py unit := λ w, mkRun (Ok tt) (f w) [].
Definition lift {A} (r : Res A) : Py A := λ w, mkRun r w [].

(** [try: body except ...: handler]; the handler answers [None] for an
    exception its clauses do not name, which then keeps propagating. *)
Definition try_except {A} (body : Py A) (handler : PyExc → option (Py A)) : Py A :=
  λ w,
  let r := body w in
  match result r with
  | Raise e =>
      match handler e with
      | Some h => let r' := h (world r) in
                  mkRun (result r') (world r') (stdout r ++ stdout r')
      | None => r
      end
  | _ => r
  end.

(** Dereferencing. *)
Definition get_loc (l : nat) : Py Location := λ w,
  match locs w !! l with
  | Some x => mkRun (Ok x) w []
  | None => mkRun (Raise NoSuchObject) w []
  end.

Definition get_obj (o : nat) : Py Creature := λ w,
  match objs w !! o with
  | Some x => mkRun (Ok x) w []
  | None => mkRun (Raise NoSuchObject) w []
  end.

(** The [Pymon] fields of [self]; a plain [Creature] has none of them. *)
Definition get_pymon (self : nat) : Py Pymon :=
  c ← get_obj self;
  match as_pymon c with
  | Some p => ret p
  | None => raise (AttributeError "'Creature' object has no such attribute")
  end.

(** ** Python's built-ins used by the program *)

(** What [random.choice] is applied to: a list, or the view returned by
    [dict.values()], which has a length but cannot be indexed. *)
Inductive PySeq (A : Type) :=
  | PyList (l : list A)
  | PyDictValues (l : list A).
Arguments PyList {A} l.
Arguments PyDictValues {A} l.

(** [random.choice(seq)] is [seq[randbelow(len(seq))]]; [r] is the random
    integer drawn. *)
Definition random_choice {A} (r : nat) (seq : PySeq A) : Res A :=
  match seq with
  | PyList l =>
      match l !! (r `mod` length l)%nat with
      | Some x => Ok x
      | None => Raise (IndexError "Cannot choose from an empty sequence")
      end
  | PyDictValues [] => Raise (IndexError "Cannot choose from an empty sequence")
  | PyDictValues _ => Raise (TypeError "'dict_values' object is not subscriptable")
  end.

(** [list.remove(x)]: drops the first occurrence, [ValueError] when absent. *)
Fixpoint list_remove (x : nat) (l : list nat) : option (list nat) :=
  match l with
  | [] => None
  | y :: l' => if decide (y = x) then Some l'
               else cons y <$> list_remove x l'
  end.

(** [list.pop(i)] with Python's negative indices. *)
Definition list_pop {A} (i : Z) (l : list A) : Res (A * list A) :=
  match l with
  | [] => Raise (IndexError "pop from empty list")
  | _ =>
    let n := Z.of_nat (length l) in
    let k := if i <? 0 then i + n else i in
    if (k <? 0) || (n <=? k) then Raise (IndexError "pop index out of range")
    else match l !! Z.to_nat k with
         | Some x => Ok (x, delete (Z.to_nat k) l)
         | None => Raise (IndexError "pop index out of range")
         end
  end.

(** [str.lower()] belongs to the interpreter, not to the program.  A Python
    string is kept as the bytes of its UTF-8 encoding, so that a string of
    ASCII characters is a string of bytes below 128.  On such a string
    [str.lower()] replaces [A]..[Z] by [a]..[z] and leaves the rest: this is
    [ascii_lower].  On other strings it follows the Unicode tables (it
    answers the same for ["É"] and ["é"], and ["k"] for the Kelvin sign),
    which are not reproduced here: the development is parametric in the
    function, and assumes of it only how it acts on ASCII strings. *)
Definition lower_ascii (c : Ascii.ascii) : Ascii.ascii :=
  let n := Ascii.nat_of_ascii c in
  if ((65 <=? n) && (n <=? 90))%nat then Ascii.ascii_of_nat (n + 32) else c.

Fixpoint ascii_lower (s : string) : string :=
  match s with
  | EmptyString => EmptyString
  | String c s' => String (lower_ascii c) (ascii_lower s')
  end.

Fixpoint is_ascii (s : string) : bool :=
  match s with
  | EmptyString => true
  | String c s' => (Ascii.nat_of_ascii c <? 128)%nat && is_ascii s'
  end.

Class StrLower := {
  lower : string → string;
  lower_ascii_text : ∀ s, is_ascii s = true → lower s = ascii_lower s
}.

(** The function that folds [A]..[Z] and nothing else: it is [str.lower()]
    wherever every string lowered is ASCII. *)
Definition ascii_text : StrLower :=
  {| lower := ascii_lower; lower_ascii_text := λ _ _, eq_refl |}.

Section game.

Context {text : StrLower}.

(** ** Location *)

Definition add_creature (self : nat) (creature : nat) : Py unit :=
  modify (upd_loc self (set_creatures (λ l, l ++ [creature]))).

Definition opposite_directions : gmap string string :=
  <["south" := "north"]> (<["north" := "south"]>
    (<["east" := "west"]> (<["west" := "east"]> ∅))).

Definition connect (self : nat) (direction : string) (another_room : nat) : Py unit :=
  modify (upd_loc self (set_doors <[direction := Some another_room]>));;
  match opposite_directions !! direction with
  | Some opposite =>
      modify (upd_loc another_room (set_doors <[opposite := Some self]>))
  | None => ret tt
  end.

Definition cardinal : list string := ["west"; "north"; "east"; "south"].

(** ** Pymon *)

Fixpoint remove_first (x : nat) (l : list nat) : list nat :=
  match l with
  | [] => []
  | y :: l' => if decide (y = x) then l' else y :: remove_first x l'
  end.

(** [loc.creatures.remove(x)]: drops the first occurrence, [ValueError] when
    there is none. *)
Definition creatures_remove (loc : nat) (x : nat) : Py unit :=
  l ← get_loc loc;
  if bool_decide (x ∈ creatures l) then
    modify (upd_loc loc (set_creatures (remove_first x)))
  else raise (ValueError "list.remove(x): x not in list").

(** The values of a dictionary, as [dict.values()] lists them. *)
Definition dict_values {V} (d : gmap string V) : list V := (map_to_list d).*2.

Definition random_escape (self : nat) (r : nat) : Py unit :=
  p ← get_pymon self;
  match current_location p with
  | None => raise (AttributeError "'NoneType' object has no attribute 'doors'")
  | Some cur =>
      l ← get_loc cur;
      random_location ← lift (random_choice r (PyDictValues (dict_values (doors l))));
      creatures_remove cur self;;
      match random_location with
      | None =>
          raise (AttributeError "'NoneType' object has no attribute 'add_creature'")
      | Some there =>
          add_creature there self;;
          modify (upd_pymon self (set_current_location (Some there)));;
          c ← get_obj self;
          print (nickname c +:+ " has escaped to a random location due to lack of energy.")
      end
  end.

(** The [try:] block of [move]; [r] is the random integer [random_escape]
    would draw. *)
Definition move_try (self : nat) (direction : string) (r : nat) : Py unit :=
  (if bool_decide (direction ∈ cardinal) then ret tt
   else raise (InvalidDirectionException direction));;
  p ← get_pymon self;
  match current_location p with
  | None => ret tt
  | Some cur =>
      l ← get_loc cur;
      match doors l !! direction with
      | Some (Some new_location) =>
          there ← get_loc new_location;
          (if bool_decide (self ∈ creatures l) then creatures_remove cur self
           else ret tt);;
          add_creature new_location self;;
          modify (upd_pymon self (set_current_location (Some new_location)));;
          print ("You moved to:  " +:+ name there);;
          modify (upd_pymon self (λ p, set_track_moves (track_moves p + 1) p));;
          p ← get_pymon self;
          if 2 <=? track_moves p then
            modify (upd_pymon self (set_track_moves 0));;
            modify (upd_pymon self (λ p, set_energy (energy p - 1) p));;
            p ← get_pymon self;
            print ("Your pymon energy decreased by 1. Current Energy: "
                   +:+ pretty (energy p));;
            if energy p <=? 0 then random_escape self r else ret tt
          else ret tt
      | _ => raise (InvalidDirectionException direction)
      end
  end.

Definition move (self : nat) (direction : string) (r : nat) : Py unit :=
  try_except (move_try self direction r)
    (λ e, match e with
          | InvalidDirectionException _ => Some (print ("Error: " +:+ message e))
          | _ => None
          end).

(** *** BattleStats *)

Definition add_battle (self : BattleStats) (pymon_name opponent : string)
    (wins draws losses : Z) (battle_time : Z) : BattleStats :=
  let battle := {| timestamp := battle_time; opponent := opponent;
                   wins := wins; draws := draws; losses := losses |} in
  let known := match battles self !! pymon_name with
               | None => <[pymon_name := []]> (battles self)
               | Some _ => battles self
               end in
  {| battles := alter (λ l, l ++ [battle]) pymon_name known |}.

(** *** The round loop of [Challenge]

    The loop touches nothing but its three counters, [self.energy], the
    keyboard and the random generator.  Its state carries them: [hp] is
    [self.energy], [asked] and [drawn] count the inputs and random integers
    consumed, [printed] the lines printed so far. *)
Record Match := {
  win : Z;
  loss : Z;
  draw : Z;
  hp : Z;
  asked : nat;
  drawn : nat;
  printed : list string
}.

Definition rps : list string := ["rock"; "paper"; "scissors"].

Definition beats (player_turn opponent_turn : string) : bool :=
  (bool_decide (player_turn = "rock") && bool_decide (opponent_turn = "scissors"))
  || (bool_decide (player_turn = "scissors") && bool_decide (opponent_turn = "paper"))
  || (bool_decide (player_turn = "paper") && bool_decide (opponent_turn = "rock")).

(** One pass through the body of the [while]. *)
Definition play_round (nick : string) (inp : nat → string) (rnd : nat → nat)
    (m : Match) : Match :=
  let player_turn := lower (inp (asked m)) in
  if negb (bool_decide (player_turn ∈ rps)) then
    {| win := win m; loss := loss m; draw := draw m; hp := hp m;
       asked := S (asked m); drawn := drawn m;
       printed := printed m ++ ["Error: Invalid choice. Try again"] |}
  else
    match random_choice (rnd (drawn m)) (PyList rps) with
    | Ok opponent_turn =>
        let said := printed m ++ ["Opponent chose " +:+ opponent_turn +:+ "."] in
        if bool_decide (player_turn = opponent_turn) then
          {| win := win m; loss := loss m; draw := draw m + 1; hp := hp m;
             asked := S (asked m); drawn := S (drawn m);
             printed := said ++ ["Draw, no one wins this encounter"] |}
        else if beats player_turn opponent_turn then
          {| win := win m + 1; loss := loss m; draw := draw m; hp := hp m;
             asked := S (asked m); drawn := S (drawn m);
             printed := said ++ ["Your Pymon " +:+ nick +:+ " won this encounter!"] |}
        else
          {| win := win m; loss := loss m + 1; draw := draw m; hp := hp m - 1;
             asked := S (asked m); drawn := S (drawn m);
             printed := said ++ ["Your Pymon " +:+ nick +:+ " lost this encounter.";
                                 "Remaining Energy: " +:+ pretty (hp m - 1)] |}
    | _ => m (* not reached: the list has three elements *)
    end.

Definition playing (m : Match) : bool :=
  (win m <? 2) && (loss m <? 2) && (0 <? hp m).

(** [while win < 2 and loss < 2 and self.energy > 0], at most [fuel] passes;
    [None] when the loop is still running after them. *)
Fixpoint rounds (fuel : nat) (nick : string) (inp : nat → string)
    (rnd : nat → nat) (m : Match) : option Match :=
  if playing m then
    match fuel with
    | O => None
    | S fuel' => rounds fuel' nick inp rnd (play_round nick inp rnd m)
    end
  else Some m.

Definition kickoff (e : Z) : Match :=
  {| win := 0; loss := 0; draw := 0; hp := e; asked := O; drawn := O;
     printed := [] |}.

(** Runs the loop on [self] and stores the energy it ends with. *)
Definition battle (fuel : nat) (self : nat) (inp : nat → string)
    (rnd : nat → nat) : Py Match :=
  me ← get_obj self;
  p ← get_pymon self;
  match rounds fuel (nickname me) inp rnd (kickoff (energy p)) with
  | None => lift OutOfFuel
  | Some m =>
      modify (upd_pymon self (set_energy (hp m)));;
      say (printed m);;
      ret m
  end.

(** [for creature in creatures: if creature.nickname == creature_name: ...
    break]. *)
Fixpoint find_opponent (creature_name : string) (cs : list nat) : Py (option nat) :=
  match cs with
  | [] => ret None
  | creature :: cs' =>
      c ← get_obj creature;
      if bool_decide (nickname c = creature_name) then ret (Some creature)
      else find_opponent creature_name cs'
  end.

(** Allocation of a new object. *)
Definition alloc (c : Creature) : Py nat := λ w,
  let r := fresh (dom (objs w)) in
  mkRun (Ok r) {| locs := locs w; objs := <[r := c]> (objs w) |} [].

Definition random_dialogue (nick : string) : list string :=
  [nick +:+ " just ignored you."; nick +:+ " just laughed at you.";
   nick +:+ " ran away."].

(** What [Challenge] does once the loop has ended with the tallies [m]:
    the battle is recorded, then the opponent is captured or the Pymon is
    lost.  [cur] is [self.current_location]; [me] and [o] are the objects
    behind [self] and [opponent]. *)
Definition aftermath (self cur opponent : nat) (me o : Creature) (m : Match)
    (now : Z) : Py unit :=
  modify (upd_pymon self (λ p,
    set_battle_stats
      (add_battle (battle_stats p) (nickname me) (nickname o)
         (win m) (draw m) (loss m) now) p));;
  if 2 <=? win m then
    print ("You won the battle against " +:+ nickname o +:+ "!");;
    captured_pymon ← alloc (new_Pymon (nickname o) (description o) (location o));
    modify (upd_pymon captured_pymon (set_energy enery_max));;
    modify (upd_pymon self (λ p, set_pets (pets p ++ [captured_pymon]) p));;
    creatures_remove cur opponent
  else
    print ("Lost the battle. " +:+ nickname me +:+ " ran away into the wild.");;
    p ← get_pymon self;
    match pets p with
    | next_pymon :: rest =>
        modify (upd_pymon self (set_pets rest));;
        modify (upd_pymon next_pymon (λ q,
          set_inventory (_inventory q ++ _inventory p) q));;
        modify (upd_pymon self (set_inventory []));;
        n ← get_obj next_pymon;
        print (nickname n +:+ " is now your primary Pymon.");;
        q ← get_pymon next_pymon;
        modify (upd_pymon self (set_current_location (current_location q)))
    | [] =>
        print "You dont have any Pymon left to help you in this game. GAME OVER!";;
        raise (SystemExit 0)
    end.

(** [inp] and [rnd] are what the keyboard and the random generator will
    deliver from the call on, [now] the clock when the battle is recorded. *)
Definition Challenge (fuel : nat) (self : nat) (creature_name : string)
    (inp : nat → string) (rnd : nat → nat) (now : Z) : Py unit :=
  p ← get_pymon self;
  match current_location p with
  | None => raise (AttributeError "'NoneType' object has no attribute 'creatures'")
  | Some cur =>
      l ← get_loc cur;
      found ← find_opponent creature_name (creatures l);
      match found with
      | None => print (creature_name +:+ " is not available here.")
      | Some opponent =>
          if bool_decide (opponent = self) then
            print "You cannot challenge your own Pymon."
          else
            o ← get_obj opponent;
            if negb (adoptable o) then
              line ← lift (random_choice (rnd O) (PyList (random_dialogue (nickname o))));
              print line
            else
              me ← get_obj self;
              print ("You started the challenge with " +:+ nickname o +:+ "!");;
              m ← battle fuel self inp rnd;
              aftermath self cur opponent me o m now
      end
  end.

(** ** Operation *)

Record Operation := {
  locations : list nat;
  current_pymon : nat
}.

(** The methods of [Operation] answer the [Operation] object as the call
    leaves it. *)
Definition move_pymon (self : Operation) (direction : string) (r : nat) : Py Operation :=
  try_except (move (current_pymon self) direction r)
    (λ e, match e with
          | InvalidDirectionException _ => Some (print ("Error: " +:+ message e))
          | _ => if is_Exception e
                 then Some (print ("Unexpected error during movement: " +:+ message e))
                 else None
          end);;
  ret self.

Definition challenge_creature (self : Operation) (fuel : nat)
    (creature_name : string) (inp : nat → string) (rnd : nat → nat)
    (now : Z) : Py Operation :=
  Challenge fuel (current_pymon self) creature_name inp rnd now;;
  ret self.

Definition newline : string := String (Ascii.ascii_of_nat 10) EmptyString.

(** [for index, pymon in enumerate(pets, start=1): print(...)]. *)
Fixpoint list_bench (index : Z) (bench : list nat) : Py unit :=
  match bench with
  | [] => ret tt
  | pymon :: bench' =>
      c ← get_obj pymon;
      print (pretty index +:+ ") " +:+ nickname c +:+ " - " +:+ description c);;
      list_bench (index + 1) bench'
  end.

(** [user] is what [int(input(...))] evaluates to, [None] when it raises
    [ValueError]. *)
Definition select_benched_pymon (self : Operation) (user : option Z) : Py Operation :=
  p ← get_pymon (current_pymon self);
  match pets p with
  | [] => print "You dont have any other Pymon";; ret self
  | _ =>
      print (newline +:+ "Available Pymons:");;
      list_bench 1 (pets p);;
      try_except
        (match user with
         | None => raise (ValueError "invalid literal for int() with base 10")
         | Some user =>
             if user =? 0 then ret self
             else
               '(selected_pymon, rest) ← lift (list_pop (user - 1) (pets p));
               modify (upd_pymon (current_pymon self) (set_pets rest));;
               modify (upd_pymon (current_pymon self) (λ p,
                 set_pets (pets p ++ [current_pymon self]) p));;
               s ← get_obj selected_pymon;
               print ("Your Primary Pymon is now: " +:+ nickname s);;
               ret {| locations := locations self; current_pymon := selected_pymon |}
         end)
        (λ e, match e with
              | ValueError _ | IndexError _ =>
                  Some (print "Error: Invalid selection.";; ret self)
              | _ => None
              end)
  end.

(** The commands of the menu that move and challenge (choices 3 and 6). *)
Inductive Command :=
  | DoMove (direction : string) (r : nat)
  | DoChallenge (fuel : nat) (creature_name : string) (inp : nat → string)
      (rnd : nat → nat) (now : Z).

Definition command (self : Operation) (c : Command) : Py Operation :=
  match c with
  | DoMove direction r => move_pymon self direction r
  | DoChallenge fuel creature_name inp rnd now =>
      challenge_creature self fuel creature_name inp rnd now
  end.

(** A session issuing the commands in order; an exception that escapes a
    command ends it. *)
Fixpoint commands (self : Operation) (cs : list Command) : Py Operation :=
  match cs with
  | [] => ret self
  | c :: cs' => self' ← command self c; commands self' cs'
  end.

(** ** Items: inventory, pick up, use *)

Definition set_immunity (v : bool) (p : Pymon) : Pymon :=
  {| current_location := current_location p; energy := energy p;
     _inventory := _inventory p; pets := pets p; track_moves := track_moves p;
     immunity := v; battle_stats := battle_stats p |}.

Definition set_items (f : list Item → list Item) (l : Location) : Location :=
  {| name := name l; loc_description := loc_description l; doors := doors l;
     creatures := creatures l; items := f (items l) |}.

Global Instance Item_eq_dec : EqDecision Item.
Proof. solve_decision. Defined.

(** [sep.join(l)]. *)
Fixpoint join (sep : string) (l : list string) : string :=
  match l with
  | [] => ""
  | [s] => s
  | s :: l' => s +:+ sep +:+ join sep l'
  end.

(** [next((i for i in l if i._name.lower() == name.lower()), None)]. *)
Fixpoint find_item (name : string) (l : list Item) : option Item :=
  match l with
  | [] => None
  | i :: l' => if bool_decide (lower (_name i) = lower name) then Some i
               else find_item name l'
  end.

(** [l.remove(x)] on a list of items: the first element equal to [x] goes.
    The program only removes the item [find_item] has just answered, the
    first one under its name, so that comparing objects or fields picks the
    same element. *)
Fixpoint item_remove (x : Item) (l : list Item) : option (list Item) :=
  match l with
  | [] => None
  | y :: l' => if decide (y = x) then Some l' else cons y <$> item_remove x l'
  end.

(** [self._inventory.remove(item)]. *)
Definition inventory_remove (self : nat) (item : Item) : Py unit :=
  p ← get_pymon self;
  match item_remove item (_inventory p) with
  | Some l' => modify (upd_pymon self (set_inventory l'))
  | None => raise (ValueError "list.remove(x): x not in list")
  end.

(** [[creature.nickname for creature in cs if creature != self]]. *)
Fixpoint other_nicknames (self : nat) (cs : list nat) : Py (list string) :=
  match cs with
  | [] => ret []
  | creature :: cs' =>
      c ← get_obj creature;
      rest ← other_nicknames self cs';
      ret (if bool_decide (creature ≠ self) then nickname c :: rest else rest)
  end.

Definition is_empty (s : string) : bool :=
  match s with EmptyString => true | _ => false end.

Definition location_description (self : nat) : Py string :=
  p ← get_pymon self;
  match current_location p with
  | None => raise (AttributeError "'NoneType' object has no attribute 'creatures'")
  | Some cur =>
      l ← get_loc cur;
      nicks ← other_nicknames self (creatures l);
      let creatures := join ", " nicks in
      let items := join ", " (_name <$> items l) in
      ret (if negb (is_empty creatures) || negb (is_empty items)
           then "Creatures: " +:+ creatures +:+ "; Items: " +:+ items
           else "nothing.")
  end.

(** [for creature in cs: print(f" - Creature: {creature.nickname}")]. *)
Fixpoint print_creatures (cs : list nat) : Py unit :=
  match cs with
  | [] => ret tt
  | creature :: cs' =>
      c ← get_obj creature;
      print (" - Creature: " +:+ nickname c);;
      print_creatures cs'
  end.

(** [answer] is what the player types at the prompt. *)
Definition use_binocular (self : nat) (answer : string) : Py unit :=
  let direction := lower answer in
  if bool_decide (direction = "current") then
    d ← location_description self;
    print ("In the current location, you see: " +:+ d)
  else
    p ← get_pymon self;
    match current_location p with
    | None => raise (AttributeError "'NoneType' object has no attribute 'doors'")
    | Some cur =>
        l ← get_loc cur;
        match doors l !! direction with
        | Some (Some connected_location) =>
            there ← get_loc connected_location;
            print ("In the " +:+ direction +:+ " direction, there are "
                   +:+ loc_description there +:+ ".");;
            match creatures there, items there with
            | [], [] => print "No creatures or items in this location."
            | _, _ =>
                print "Creatures and items in this location: ";;
                print_creatures (creatures there);;
                say ((λ i, " - Item: " +:+ _name i) <$> items there)
            end
        | _ => print ("This direction (" +:+ direction +:+ ") leads nowhere.")
        end
    end.

(** [answer] is what the player would type at the prompt of the binocular. *)
Definition use_item (self : nat) (item_name : string) (answer : string) : Py unit :=
  p ← get_pymon self;
  match find_item item_name (_inventory p) with
  | None => print ("This " +:+ item_name +:+ " is not in your inventory.")
  | Some item =>
      if bool_decide (lower (_name item) = "apple") then
        if energy p <? enery_max then
          modify (upd_pymon self (λ p, set_energy (energy p + 1) p));;
          inventory_remove self item;;
          print "Your pymon ate the apple. Energy increased by 1"
        else print "Energy is already at maximum."
      else if bool_decide (lower (_name item) = "magic potion") then
        modify (upd_pymon self (set_immunity true));;
        inventory_remove self item;;
        print "Drinked a magic potion. Temporary immunity activated for the next battle"
      else if bool_decide (lower (_name item) = "binocular") then
        use_binocular self answer;;
        inventory_remove self item;;
        print "Binocular has been removed from inventory after use."
      else ret tt
  end.

(** [Pymon.pick_item]. *)
Definition pick_item (self : nat) (name : string) : Py unit :=
  p ← get_pymon self;
  match current_location p with
  | None => raise (AttributeError "'NoneType' object has no attribute 'items'")
  | Some cur =>
      l ← get_loc cur;
      match find_item name (items l) with
      | Some item =>
          if pick_up_items item then
            modify (upd_pymon self (λ p, set_inventory (_inventory p ++ [item]) p));;
            l ← get_loc cur;
            match item_remove item (items l) with
            | Some l' => modify (upd_loc cur (set_items (λ _, l')))
            | None => raise (ValueError "list.remove(x): x not in list")
            end;;
            print (name +:+ " has been added to your inventory.")
          else print (name +:+ " cannot be picked up.")
      | None => print (name +:+ " is not available here.")
      end
  end.

(** * Vocabulary of the statements *)

(** [r] preceded by the lines [out]. *)
Definition after {A} (out : list string) (r : Run A) : Run A :=
  mkRun (result r) (world r) (out ++ stdout r).

(** A property of the store that a computation maintains, however it ends;
    the computation contains no loop that could still be running. *)
Definition preserves {A} (P : World → Prop) (m : Py A) : Prop :=
  ∀ w, P w → P (world (m w)) ∧ result (m w) ≠ OutOfFuel.

(** [self] is a Pymon with energy [e] and battle history [bs]. *)
Definition self_has (self : nat) (e : Z) (bs : BattleStats) (w : World) : Prop :=
  ∃ p, pymon_at w self = Some p ∧ energy p = e ∧ battle_stats p = bs.

(** An assignment to a field other than [energy] and [battle_stats]. *)
Definition keeps (f : Pymon → Pymon) : Prop :=
  ∀ p, energy (f p) = energy p ∧ battle_stats (f p) = battle_stats p.

(** The record [add_battle] appends. *)
Definition recorded (opp : string) (m : Match) (now : Z) : Battle :=
  {| timestamp := now; opponent := opp; wins := win m; draws := draw m;
     losses := loss m |}.

(** The store once the battle is recorded on [self]. *)
Definition with_record (self : nat) (me o : Creature) (m : Match) (now : Z)
    (w : World) : World :=
  upd_pymon self (λ p,
    set_battle_stats
      (add_battle (battle_stats p) (nickname me) (nickname o)
         (win m) (draw m) (loss m) now) p) w.

(** The store after the branch of a lost match that finds the pet
    [next_pymon] in front of the others, [rest]; [p] holds the fields of
    [self] and [q] those of the pet when the branch starts. *)
Definition with_pet_promoted (self next_pymon : nat) (rest : list nat)
    (p q : Pymon) (w : World) : World :=
  upd_pymon self (set_current_location (current_location q))
    (upd_pymon self (set_inventory [])
       (upd_pymon next_pymon (λ q, set_inventory (_inventory q ++ _inventory p) q)
          (upd_pymon self (set_pets rest) w))).

(** How many of the commands are moves. *)
Fixpoint count_moves (cs : list Command) : nat :=
  match cs with
  | [] => O
  | DoMove _ _ :: cs' => S (count_moves cs')
  | DoChallenge _ _ _ _ _ :: cs' => count_moves cs'
  end.

(** Where [move] takes [self]: the room behind the door, when [direction] is
    one of the four and its slot holds a location. *)
Definition destination (w : World) (self : nat) (direction : string) : option nat :=
  if bool_decide (direction ∈ cardinal) then
    p ← pymon_at w self;
    cur ← current_location p;
    l ← locs w !! cur;
    slot ← doors l !! direction;
    new_location ← slot;
    _ ← locs w !! new_location;
    Some new_location
  else None.

(** The fields of [self] after a successful move to [new_location]. *)
Definition moved (new_location : nat) (p : Pymon) : Pymon :=
  let p1 := set_track_moves (track_moves p + 1)
              (set_current_location (Some new_location) p) in
  if 2 <=? track_moves p1
  then set_energy (energy p - 1) (set_track_moves 0 p1)
  else p1.

(** The store after calling [move] once per direction, in order. *)
Fixpoint after_moves (self : nat) (ds : list (string * nat)) (w : World) : World :=
  match ds with
  | [] => w
  | (d, r) :: ds' => after_moves self ds' (world (move self d r w))
  end.

(** How many of these calls were successful moves. *)
Fixpoint successful_moves (self : nat) (ds : list (string * nat)) (w : World) : nat :=
  match ds with
  | [] => O
  | (d, r) :: ds' =>
      (match destination w self d with Some _ => 1 | None => 0 end
       + successful_moves self ds' (world (move self d r w)))%nat
  end.

(** Rounds with a winner among the next [n] prompts, reading the inputs
    from position [i] and the random integers from position [j]. *)
Fixpoint decisive (n : nat) (inp : nat → string) (rnd : nat → nat)
    (i j : nat) : nat :=
  match n with
  | O => O
  | S n' =>
      let player_turn := lower (inp i) in
      if negb (bool_decide (player_turn ∈ rps)) then decisive n' inp rnd (S i) j
      else match random_choice (rnd j) (PyList rps) with
           | Ok opponent_turn =>
               if bool_decide (player_turn = opponent_turn)
               then decisive n' inp rnd (S i) (S j)
               else S (decisive n' inp rnd (S i) (S j))
           | _ => O
           end
  end.

(** What the loop maintains when it starts from energy [e]. *)
Definition tallied (e : Z) (m : Match) : Prop :=
  0 ≤ win m ≤ 2 ∧ 0 ≤ loss m ≤ 2 ∧ 0 ≤ draw m ∧
  (win m = 2 → loss m < 2 ∧ 0 < hp m) ∧
  hp m = e - loss m ∧ Z.min e 0 ≤ hp m.

(** While the loop is running from [m], a round with a winner is still to
    come: whenever [n] more passes have not ended it, the streams hold more
    rounds with a winner than those [n] passes have read. *)
Definition winner_follows (nick : string) (inp : nat → string)
    (rnd : nat → nat) (m : Match) : Prop :=
  ∀ n, rounds n nick inp rnd m = None →
    ∃ k, (decisive n inp rnd (asked m) (drawn m)
          < decisive k inp rnd (asked m) (drawn m))%nat.

(** A command whose inputs are typed in ASCII. *)
Definition ascii_typed (c : Command) : Prop :=
  match c with
  | DoMove _ _ => True
  | DoChallenge _ _ inp _ _ => ∀ i, is_ascii (inp i) = true
  end.

Definition doors_of (w : World) (l : nat) : option (gmap string (option nat)) :=
  doors <$> locs w !! l.

Definition energy_of (w : World) (o : nat) : option Z := energy <$> pymon_at w o.

(** ** A small world

    Two rooms; the player's Pymon and two creatures start in the first, a
    third creature in the second. *)
Definition wild (nick : string) (loc : nat) (a : bool) : Creature :=
  {| nickname := nick; description := "a creature"; location := Some loc;
     adoptable := a; as_pymon := None |}.

Definition two_rooms : World :=
  {| locs := <[1%nat := set_creatures (λ _, [3%nat]) (new_Location "Cave" "dark")]>
               (<[0%nat := set_creatures (λ _, [0; 1; 2]%nat)
                             (new_Location "Forest" "green")]> ∅);
     objs := <[3%nat := wild "Zubat" 1 true]> $ <[2%nat := wild "Rocky" 0 false]>
               (<[1%nat := wild "Bulba" 0 true]>
                  (<[0%nat := new_Pymon "Kimimon" "the player" (Some 0%nat)]> ∅)) |}.

Definition forest_cave : World := world (connect 0%nat "east" 1%nat two_rooms).

Definition kimimon : Operation := {| locations := [0; 1]%nat; current_pymon := 0%nat |}.

Definition back_and_forth : list (string * nat) :=
  [("east", O); ("west", O); ("east", O); ("west", O); ("east", O)].

(** After a sixth move the Pymon is back in the first room, out of energy. *)
Definition worn_out : World :=
  after_moves 0%nat (back_and_forth ++ [("west", O)]) forest_cave.

Definition tired_kimimon : Pymon :=
  {| current_location := Some 0%nat; energy := 0; _inventory := []; pets := [];
     track_moves := 0; immunity := false; battle_stats := {| battles := ∅ |} |}.

Definition tired_me : Creature :=
  {| nickname := "Kimimon"; description := "the player"; location := Some 0%nat;
     adoptable := false; as_pymon := Some tired_kimimon |}.

Definition bulba : Creature := wild "Bulba" 0 true.
Definition fresh_kimimon : Creature := new_Pymon "Kimimon" "the player" (Some 0%nat).

(** A player who always types the same word, and random generators that
    always make the opponent choose the same move. *)
Definition always (s : string) : nat → string := λ _, s.
Definition rock : nat → nat := λ _, 0%nat.
Definition paper : nat → nat := λ _, 1%nat.
Definition scissors : nat → nat := λ _, 2%nat.

(** The Pymon has picked up an apple. *)
Definition apple : Item :=
  {| _name := "apple"; _description := "fruit"; pick_up_items := true;
     consumable := true |}.

Definition stocked : World := upd_pymon 0%nat (set_inventory [apple]) forest_cave.

Definition win_then_lose : list Command :=
  [DoChallenge 5 "Bulba" (always "rock") scissors 10; DoMove "east" O;
   DoChallenge 5 "Zubat" (always "rock") paper 20].

Definition win_twice : list Command :=
  [DoChallenge 5 "Bulba" (always "rock") scissors 10; DoMove "east" O;
   DoChallenge 5 "Zubat" (always "rock") scissors 20].

Definition eight_moves : list Command :=
  [DoMove "east" O; DoMove "west" O; DoMove "east" O; DoMove "west" O;
   DoMove "east" O; DoMove "west" O; DoMove "east" O; DoMove "west" O].

(** The active Pymon of the [Operation] a command has answered. *)
Definition active (r : Run Operation) : option nat :=
  match result r with
  | Ok op => Some (current_pymon op)
  | _ => None
  end.

(** The property every store has. *)
Definition anything : World → Prop := λ _, True.

(** ** Vocabulary of the further properties *)

Definition add_battles (self : BattleStats) (pymon_name : string)
    (bs : list Battle) : BattleStats :=
  foldl (λ s b, add_battle s pymon_name (opponent b) (wins b) (draws b)
                  (losses b) (timestamp b)) self bs.

Definition potion : Item :=
  {| _name := "Magic Potion"; _description := "a drink"; pick_up_items := true;
     consumable := true |}.

Definition binocular : Item :=
  {| _name := "binocular"; _description := "to look far"; pick_up_items := true;
     consumable := false |}.

Definition statue : Item :=
  {| _name := "statue"; _description := "too heavy"; pick_up_items := false;
     consumable := false |}.

Definition kimimon_with (inv : list Item) (e : Z) : Pymon :=
  {| current_location := Some 0%nat; energy := e; _inventory := inv; pets := [];
     track_moves := 0; immunity := false; battle_stats := {| battles := ∅ |} |}.

(** The Pymon holds a potion, a binocular and an apple, with energy 2. *)
Definition packed : World :=
  upd_pymon 0%nat (λ p, set_energy 2 (set_inventory [potion; binocular; apple] p))
    forest_cave.

(** A statue and an apple lie in the first room. *)
Definition orchard : World :=
  upd_loc 0%nat (set_items (λ _, [statue; apple])) forest_cave.

Definition two_pets : World := world (commands kimimon win_twice stocked).

Definition flagged (self : nat) (b : bool) (w : World) : Prop :=
  ∃ p, pymon_at w self = Some p ∧ immunity p = b.

Definition keeps_flag (f : Pymon → Pymon) : Prop :=
  ∀ p, immunity (f p) = immunity p.

(** * Properties *)

(** ** The monad *)

Lemma after_nil {A} (r : Run A) : after [] r = r.
Proof. by destruct r. Qed.

Lemma bind_run {A B} (k : A → Py B) (m : Py A) w a w' out :
  m w = mkRun (Ok a) w' out → (m ≫= k) w = after out (k a w').
Proof. intros H. unfold mbind, Py_bind, bind, after. by rewrite H. Qed.

Lemma bind_raised {A B} (k : A → Py B) (m : Py A) w e w' out :
  m w = mkRun (Raise e) w' out → (m ≫= k) w = mkRun (Raise e) w' out.
Proof. intros H. unfold mbind, Py_bind, bind. by rewrite H. Qed.

Lemma bind_ret {A B} (k : A → Py B) w a : (ret a ≫= k) w = k a w.
Proof. unfold mbind, Py_bind, bind, ret; simpl. by destruct (k a w). Qed.

Lemma bind_lift_ok {A B} (k : A → Py B) w a : (lift (Ok a) ≫= k) w = k a w.
Proof. unfold mbind, Py_bind, bind, lift; simpl. by destruct (k a w). Qed.

Lemma bind_modify {B} (k : unit → Py B) w f : (modify f ≫= k) w = k tt (f w).
Proof. unfold mbind, Py_bind, bind, modify; simpl. by destruct (k tt (f w)). Qed.

Lemma bind_print {B} (k : unit → Py B) w s : (print s ≫= k) w = after [s] (k tt w).
Proof. reflexivity. Qed.

Lemma bind_say {B} (k : unit → Py B) w s : (say s ≫= k) w = after s (k tt w).
Proof. reflexivity. Qed.

Lemma bind_get_loc {B} (k : Location → Py B) w l x :
  locs w !! l = Some x → (get_loc l ≫= k) w = k x w.
Proof.
  intros H. unfold mbind, Py_bind, bind, get_loc. rewrite H; simpl.
  by destruct (k x w).
Qed.

Lemma bind_get_obj {B} (k : Creature → Py B) w o c :
  objs w !! o = Some c → (get_obj o ≫= k) w = k c w.
Proof.
  intros H. unfold mbind, Py_bind, bind, get_obj. rewrite H; simpl.
  by destruct (k c w).
Qed.

Lemma get_pymon_run w o p :
  pymon_at w o = Some p → get_pymon o w = mkRun (Ok p) w [].
Proof.
  unfold pymon_at. intros H. destruct (objs w !! o) as [c|] eqn:Hc; [|done].
  simpl in H. unfold get_pymon. rewrite (bind_get_obj _ _ _ _ Hc). by rewrite H.
Qed.

Lemma bind_get_pymon {B} (k : Pymon → Py B) w o p :
  pymon_at w o = Some p → (get_pymon o ≫= k) w = k p w.
Proof.
  intros H. rewrite (bind_run _ _ _ p w []); [apply after_nil|].
  by apply get_pymon_run.
Qed.

Lemma get_pymon_fails w o :
  pymon_at w o = None →
  ∃ e, get_pymon o w = mkRun (Raise e) w [] ∧
       ∀ d, e ≠ InvalidDirectionException d.
Proof.
  unfold pymon_at, get_pymon. intros H.
  destruct (objs w !! o) as [c|] eqn:Hc.
  - rewrite (bind_get_obj _ _ _ _ Hc). simpl in H. rewrite H.
    eexists. split; [reflexivity|done].
  - eexists. split; [apply bind_raised; unfold get_obj; by rewrite Hc|done].
Qed.

Lemma get_loc_fails w l :
  locs w !! l = None → get_loc l w = mkRun (Raise NoSuchObject) w [].
Proof. intros H. unfold get_loc. by rewrite H. Qed.

(** *** Maintained properties, by the shape of the computation *)

Lemma preserves_bind {A B} P (m : Py A) (k : A → Py B) :
  preserves P m → (∀ a, preserves P (k a)) → preserves P (m ≫= k).
Proof.
  intros Hm Hk w Hw. destruct (Hm w Hw) as [HP Hres].
  unfold mbind, Py_bind, bind.
  destruct (result (m w)) eqn:Hr; simpl; [by apply Hk|done|done].
Qed.

Lemma preserves_pure {A} P (m : Py A) :
  (∀ w, world (m w) = w ∧ result (m w) ≠ OutOfFuel) → preserves P m.
Proof. intros H w Hw. destruct (H w) as [-> ?]. done. Qed.

Lemma preserves_modify P f : (∀ w, P w → P (f w)) → preserves P (modify f).
Proof. intros H w Hw. split; [by apply H|done]. Qed.

Lemma preserves_try {A} P (body : Py A) handler :
  preserves P body → (∀ e h, handler e = Some h → preserves P h) →
  preserves P (try_except body handler).
Proof.
  intros Hb Hh w Hw. destruct (Hb w Hw) as [HP Hres]. unfold try_except.
  destruct (result (body w)) as [a|e|] eqn:Hr; [by rewrite Hr| |done].
  destruct (handler e) as [h|] eqn:He; [|by rewrite Hr]. simpl.
  by eapply Hh.
Qed.

Lemma preserves_get_loc P l : preserves P (get_loc l).
Proof. apply preserves_pure. intros w. unfold get_loc. by destruct (locs w !! l). Qed.

Lemma preserves_get_obj P o : preserves P (get_obj o).
Proof. apply preserves_pure. intros w. unfold get_obj. by destruct (objs w !! o). Qed.

Lemma preserves_get_pymon P o : preserves P (get_pymon o).
Proof.
  apply preserves_bind; [apply preserves_get_obj|].
  intros c. by destruct (as_pymon c); apply preserves_pure.
Qed.

Lemma preserves_print P s : preserves P (print s).
Proof. by apply preserves_pure. Qed.

Lemma preserves_raise {A} P e : preserves P (raise (A:=A) e).
Proof. by apply preserves_pure. Qed.

Lemma preserves_ret {A} P (a : A) : preserves P (ret a).
Proof. by apply preserves_pure. Qed.

(** ** The store *)

Lemma pymon_at_upd_loc l f w o : pymon_at (upd_loc l f w) o = pymon_at w o.
Proof. reflexivity. Qed.

Lemma pymon_at_upd_pymon o f w :
  pymon_at (upd_pymon o f w) o = f <$> pymon_at w o.
Proof.
  unfold pymon_at, upd_pymon; simpl. rewrite lookup_alter_eq.
  destruct (objs w !! o) as [c|]; [|done]. by destruct c.
Qed.

Lemma pymon_at_upd_pymon_ne o o' f w :
  o ≠ o' → pymon_at (upd_pymon o f w) o' = pymon_at w o'.
Proof.
  intros Hne. unfold pymon_at, upd_pymon; simpl. by rewrite lookup_alter_ne.
Qed.

(** ** Location.connect *)

Lemma off_compass_up : "up" ∉ cardinal.
Proof.
  unfold cardinal. rewrite !not_elem_of_cons. repeat split; try done.
  apply not_elem_of_nil.
Qed.

Lemma opposite_off_compass direction :
  direction ∉ cardinal → opposite_directions !! direction = None.
Proof.
  unfold cardinal, opposite_directions. intros Hd.
  rewrite !not_elem_of_cons in Hd. destruct Hd as (?&?&?&?&_).
  by rewrite !lookup_insert_ne, lookup_empty.
Qed.

Lemma connect_never_raises self direction another_room w :
  result (connect self direction another_room w) = Ok tt.
Proof.
  unfold connect. rewrite bind_modify.
  by destruct (opposite_directions !! direction).
Qed.

(** C5, as stated, fails: connecting through the direction "up" raises
    nothing and changes the door table of the first room. *)
Lemma connect_up_accepted :
  ("up" ∉ cardinal) ∧
  result (connect 0%nat "up" 1%nat two_rooms) = Ok tt ∧
  doors_of (world (connect 0%nat "up" 1%nat two_rooms)) 0%nat
    ≠ doors_of two_rooms 0%nat.
Proof.
  split; [apply off_compass_up|split; [reflexivity|]].
  intros Heq. apply (f_equal (λ d, d ≫= (.!! "up"))) in Heq.
  vm_compute in Heq. discriminate.
Qed.

(** C5 (amended): [connect] never fails, whatever the direction.  For a
    direction outside {west, north, east, south} it stores the other room
    under that key in the door table of [self] and sets no reciprocal slot:
    every other location is untouched, and the four cardinal slots of every
    location, [self] included, are as before. *)
Theorem connect_off_compass self direction another_room w l :
  direction ∉ cardinal →
  locs w !! self = Some l →
  let r := connect self direction another_room w in
  (∀ d o, result (connect self d o w) = Ok tt) ∧
  stdout r = [] ∧
  objs (world r) = objs w ∧
  locs (world r)
    = <[self := set_doors <[direction := Some another_room]> l]> (locs w) ∧
  (∀ k d, d ∈ cardinal → doors_of (world r) k ≫= (.!! d) = doors_of w k ≫= (.!! d)).
Proof.
  intros Hd Hl r.
  assert (Hr : r = mkRun (Ok tt)
      (upd_loc self (set_doors <[direction := Some another_room]>) w) []).
  { unfold r, connect. rewrite bind_modify.
    by rewrite (opposite_off_compass _ Hd). }
  assert (Hlocs : locs (world r)
    = <[self := set_doors <[direction := Some another_room]> l]> (locs w)).
  { rewrite Hr; simpl.
    apply map_eq; intros k. destruct (decide (self = k)) as [->|Hne].
    - by rewrite lookup_alter_eq, lookup_insert_eq, Hl.
    - by rewrite lookup_alter_ne, lookup_insert_ne. }
  split; [intros; apply connect_never_raises|].
  split; [by rewrite Hr|]. split; [by rewrite Hr|]. split; [exact Hlocs|].
  intros k d Hin. unfold doors_of. rewrite Hlocs.
  destruct (decide (self = k)) as [->|Hne].
  - rewrite lookup_insert_eq, Hl; simpl.
    rewrite lookup_insert_ne; [done|]. intros ->. contradiction.
  - by rewrite lookup_insert_ne.
Qed.

Lemma connect_off_compass_witness :
  ("up" ∉ cardinal) ∧
  locs (world (connect 0%nat "up" 1%nat two_rooms))
    = <[0%nat := set_doors <["up" := Some 1%nat]>
                   (set_creatures (λ _, [0; 1; 2]%nat)
                      (new_Location "Forest" "green"))]> (locs two_rooms).
Proof.
  split; [exact off_compass_up|].
  apply (connect_off_compass 0%nat "up" 1%nat two_rooms _ off_compass_up).
  reflexivity.
Defined.

(** ** Pymon.move *)

Lemma random_escape_raises self r w :
  ∃ e, random_escape self r w = mkRun (Raise e) w [] ∧
       ∀ d, e ≠ InvalidDirectionException d.
Proof.
  unfold random_escape.
  destruct (pymon_at w self) as [p|] eqn:Hp.
  2:{ destruct (get_pymon_fails _ _ Hp) as (e & He & Hne). exists e.
      split; [by apply bind_raised|done]. }
  rewrite (bind_get_pymon _ _ _ _ Hp).
  destruct (current_location p) as [cur|]; [|by eexists].
  destruct (locs w !! cur) as [l|] eqn:Hl.
  2:{ eexists. split; [apply bind_raised; by apply get_loc_fails|done]. }
  rewrite (bind_get_loc _ _ _ _ Hl).
  destruct (dict_values (doors l)) eqn:Hv;
    (eexists; split; [apply bind_raised; unfold lift, random_choice; reflexivity|done]).
Qed.

Lemma creatures_remove_run loc x w l :
  locs w !! loc = Some l → x ∈ creatures l →
  creatures_remove loc x w
  = mkRun (Ok tt) (upd_loc loc (set_creatures (remove_first x)) w) [].
Proof.
  intros Hl Hx. unfold creatures_remove. rewrite (bind_get_loc _ _ _ _ Hl).
  by rewrite (bool_decide_eq_true_2 _ Hx).
Qed.

Lemma destination_Some w self direction nl :
  destination w self direction = Some nl →
  direction ∈ cardinal ∧
  ∃ p cur l there, pymon_at w self = Some p ∧ current_location p = Some cur ∧
    locs w !! cur = Some l ∧ doors l !! direction = Some (Some nl) ∧
    locs w !! nl = Some there.
Proof.
  unfold destination. case_bool_decide as Hd; [|done]. intros H.
  split; [done|].
  destruct (pymon_at w self) as [p|] eqn:Hp; [|done]. simpl in H.
  destruct (current_location p) as [cur|] eqn:Hcur; [|done]. simpl in H.
  destruct (locs w !! cur) as [l|] eqn:Hl; [|done]. simpl in H.
  destruct (doors l !! direction) as [[x|]|] eqn:Hdoor; try done. simpl in H.
  destruct (locs w !! x) as [there|] eqn:Hx; [|done]. simpl in H.
  injection H as ->. by exists p, cur, l, there.
Qed.

(** A successful move: where the objects are afterwards, and how the call
    ends. *)
Lemma move_try_moved self direction r w nl p :
  destination w self direction = Some nl →
  pymon_at w self = Some p →
  ∃ res out w',
    move_try self direction r w = mkRun res w' out ∧
    pymon_at w' self = Some (moved nl p) ∧
    (∀ o, o ≠ self → objs w' !! o = objs w !! o) ∧
    (∀ d, res ≠ Raise (InvalidDirectionException d)) ∧
    (if (2 <=? track_moves p + 1) && (energy p - 1 <=? 0)
     then ∃ e, res = Raise e else res = Ok tt).
Proof.
  intros Hdest Hp'.
  destruct (destination_Some _ _ _ _ Hdest) as (Hd & p0 & cur & l & there & Hp & Hcur & Hl & Hdoor & Hthere).
  assert (p0 = p) as -> by congruence. clear Hp'.
  unfold move_try. rewrite (bool_decide_eq_true_2 _ Hd), bind_ret.
  rewrite (bind_get_pymon _ _ _ _ Hp), Hcur, (bind_get_loc _ _ _ _ Hl), Hdoor.
  rewrite (bind_get_loc _ _ _ _ Hthere).
  set (w1 := if bool_decide (self ∈ creatures l)
             then upd_loc cur (set_creatures (remove_first self)) w else w).
  assert (Hstep1 : (if bool_decide (self ∈ creatures l)
                    then creatures_remove cur self else ret ()) w
                   = mkRun (Ok tt) w1 []).
  { unfold w1. case_bool_decide as Hin; [|done]. by apply creatures_remove_run with l. }
  rewrite (bind_run _ _ _ _ _ _ Hstep1), after_nil.
  unfold add_creature. rewrite !bind_modify, bind_print, bind_modify.
  set (w2 := upd_pymon self _ (upd_pymon self _ (upd_loc nl _ w1))).
  assert (Hobjs1 : objs w1 = objs w) by (unfold w1; by case_bool_decide).
  assert (Hp2 : pymon_at w2 self
     = Some (set_track_moves (track_moves p + 1) (set_current_location (Some nl) p))).
  { unfold w2. rewrite !pymon_at_upd_pymon, pymon_at_upd_loc.
    unfold pymon_at. rewrite Hobjs1. fold (pymon_at w self). by rewrite Hp. }
  assert (Hfr2 : ∀ o, o ≠ self → objs w2 !! o = objs w !! o).
  { intros o Ho. unfold w2, upd_pymon; simpl. by rewrite !lookup_alter_ne, Hobjs1. }
  rewrite (bind_get_pymon _ _ _ _ Hp2).
  unfold moved. cbn [track_moves set_track_moves set_current_location energy].
  destruct (2 <=? track_moves p + 1) eqn:Htm.
  - rewrite !bind_modify.
    set (w3 := upd_pymon self _ (upd_pymon self _ w2)).
    assert (Hp3 : pymon_at w3 self
      = Some (set_energy (energy p - 1) (set_track_moves 0
          (set_track_moves (track_moves p + 1) (set_current_location (Some nl) p))))).
    { unfold w3. by rewrite !pymon_at_upd_pymon, Hp2. }
    assert (Hfr3 : ∀ o, o ≠ self → objs w3 !! o = objs w !! o).
    { intros o Ho. unfold w3, upd_pymon; simpl. rewrite !lookup_alter_ne by done.
      by rewrite Hobjs1. }
    rewrite (bind_get_pymon _ _ _ _ Hp3), bind_print.
    cbn [energy set_energy].
    destruct (energy p - 1 <=? 0) eqn:He.
    + destruct (random_escape_raises self r w3) as (e & Hesc & Hne).
      rewrite Hesc. eexists _, _, _. split; [reflexivity|].
      split; [exact Hp3|]. split; [exact Hfr3|]. split; [intros d [= ->]; by apply (Hne d)|].
      by eexists.
    + eexists _, _, _. split; [reflexivity|].
      split; [exact Hp3|]. split; [exact Hfr3|]. by split.
  - eexists _, _, _. split; [reflexivity|].
    split; [exact Hp2|]. split; [exact Hfr2|]. by split.
Qed.

(** A call that is not a successful move leaves the store as it was and
    prints nothing inside the [try] block. *)
Lemma move_try_stuck self direction r w :
  destination w self direction = None →
  ∃ res, move_try self direction r w = mkRun res w [].
Proof.
  unfold destination, move_try. intros Hdest.
  case_bool_decide as Hd; [|by eexists].
  rewrite bind_ret.
  destruct (pymon_at w self) as [p|] eqn:Hp.
  2:{ destruct (get_pymon_fails _ _ Hp) as (e & He & _). exists (Raise e).
      by apply bind_raised. }
  rewrite (bind_get_pymon _ _ _ _ Hp). simpl in Hdest.
  destruct (current_location p) as [cur|]; [|by eexists]. simpl in Hdest.
  destruct (locs w !! cur) as [l|] eqn:Hl.
  2:{ eexists. apply bind_raised. by apply get_loc_fails. }
  rewrite (bind_get_loc _ _ _ _ Hl). simpl in Hdest.
  destruct (doors l !! direction) as [[x|]|]; [|by eexists..]. simpl in Hdest.
  destruct (locs w !! x) as [there|] eqn:Hx; [done|].
  eexists. apply bind_raised. by apply get_loc_fails.
Qed.

Lemma move_world self direction r w :
  world (move self direction r w) = world (move_try self direction r w).
Proof.
  unfold move, try_except.
  destruct (result (move_try self direction r w)) as [|e|]; [done| |done].
  by destruct e.
Qed.

Lemma move_stuck self direction r w :
  destination w self direction = None → world (move self direction r w) = w.
Proof.
  intros H. rewrite move_world.
  destruct (move_try_stuck self direction r w H) as [res ->]. done.
Qed.

Lemma move_moved self direction r w nl p :
  destination w self direction = Some nl → pymon_at w self = Some p →
  pymon_at (world (move self direction r w)) self = Some (moved nl p).
Proof.
  intros Hd Hp. rewrite move_world.
  destruct (move_try_moved self direction r w nl p Hd Hp)
    as (res & out & w' & -> & H & _). done.
Qed.

(** C9: a failed [move] leaves the whole store as it was.  The call fails
    when the direction is not one of the four, or when the door slot of the
    current location is missing or holds [None]; it then only prints the
    error: the locations, their creature lists and every field of the Pymon
    are those of before. *)
Theorem move_failure_changes_nothing self direction r w :
  direction ∉ cardinal ∨
  (∃ p cur l, pymon_at w self = Some p ∧ current_location p = Some cur ∧
              locs w !! cur = Some l ∧
              (doors l !! direction = None ∨ doors l !! direction = Some None)) →
  move self direction r w
  = mkRun (Ok tt) w ["Error: " +:+ message (InvalidDirectionException direction)].
Proof.
  intros H.
  assert (Htry : move_try self direction r w
                 = mkRun (Raise (InvalidDirectionException direction)) w []).
  { unfold move_try. case_bool_decide as Hd; [|done].
    destruct H as [H|(p & cur & l & Hp & Hcur & Hl & Hdoor)]; [done|].
    rewrite bind_ret, (bind_get_pymon _ _ _ _ Hp), Hcur, (bind_get_loc _ _ _ _ Hl).
    by destruct Hdoor as [-> | ->]. }
  unfold move, try_except. by rewrite Htry.
Qed.

Lemma move_failure_changes_nothing_witness :
  move 0%nat "west" O forest_cave
  = mkRun (Ok tt) forest_cave
      ["Error: Error: Direction - west does not contain any location"].
Proof.
  apply (move_failure_changes_nothing 0%nat "west" O forest_cave).
  right. eexists _, 0%nat, _. repeat split; [reflexivity..|].
  right. reflexivity.
Defined.

Lemma moved_counts nl p :
  0 ≤ track_moves p ≤ 1 →
  track_moves (moved nl p) = (track_moves p + 1) `mod` 2 ∧
  energy (moved nl p) = energy p - (track_moves p + 1) `div` 2.
Proof.
  intros Ht. destruct p as [cl e inv ps tm im bs]; unfold moved; simpl in *.
  assert (tm = 0 ∨ tm = 1) as [-> | ->] by lia; simpl.
  - change ((0 + 1) `div` 2) with 0. split; [reflexivity|lia].
  - change ((1 + 1) `div` 2) with 1. split; [reflexivity|lia].
Qed.

(** After any calls to [move] on a Pymon whose counter was in step, the
    counter is the parity of the successful moves and the energy has dropped
    by half their number. *)
Lemma after_moves_counts self ds : ∀ w p,
  pymon_at w self = Some p → 0 ≤ track_moves p ≤ 1 →
  ∃ p1, pymon_at (after_moves self ds w) self = Some p1 ∧
    track_moves p1
      = (track_moves p + Z.of_nat (successful_moves self ds w)) `mod` 2 ∧
    energy p1
      = energy p - (track_moves p + Z.of_nat (successful_moves self ds w)) `div` 2.
Proof.
  induction ds as [|[d r] ds IH]; intros w p Hp Ht; simpl.
  - exists p. split; [done|]. rewrite Z.add_0_r.
    rewrite Z.mod_small, Z.div_small by lia. lia.
  - destruct (destination w self d) as [nl|] eqn:Hdest.
    + pose proof (move_moved self d r w nl p Hdest Hp) as Hp'.
      destruct (moved_counts nl p Ht) as [Htm He].
      destruct (IH _ _ Hp') as (p1 & Hp1 & Ht1 & He1).
      { rewrite Htm. pose proof (Z.mod_pos_bound (track_moves p + 1) 2). lia. }
      exists p1. split; [done|]. rewrite Ht1, He1, Htm, He.
      set (k := Z.of_nat (successful_moves self ds (world (move self d r w)))).
      replace (Z.of_nat (1 + successful_moves self ds (world (move self d r w))))
        with (1 + k) by (unfold k; lia).
      assert (0 ≤ k) by (unfold k; lia). clearbody k.
      assert (track_moves p = 0 ∨ track_moves p = 1) as [-> | ->] by lia.
      * change ((0 + 1) `mod` 2) with 1. change ((0 + 1) `div` 2) with 0.
        rewrite Z.add_0_l. split; [done|lia].
      * change ((1 + 1) `mod` 2) with 0. change ((1 + 1) `div` 2) with 1.
        replace (1 + (1 + k)) with (k + 1 * 2) by lia.
        rewrite Z.mod_add, Z.div_add, Z.add_0_l by lia. split; [done|lia].
    + rewrite (move_stuck _ _ _ _ Hdest). simpl. by apply IH.
Qed.

(** C6: every second successful move, and only it, costs one point of
    energy.  On a Pymon whose move counter starts at 0 (as [__init__] sets
    it), after any sequence of calls of which [n] were successful moves, the
    energy has dropped by [n / 2] and the counter is [n mod 2]; the next call,
    when it is a successful move, is successful move number [n + 1]: it
    takes one point of energy and resets the counter when [n + 1] is even,
    and leaves the energy alone when [n + 1] is odd; when it fails, energy
    and counter stay as they are. *)
Theorem move_energy_law self w p ds d r :
  pymon_at w self = Some p →
  track_moves p = 0 →
  let w1 := after_moves self ds w in
  let n := successful_moves self ds w in
  ∃ p1 p2,
    pymon_at w1 self = Some p1 ∧
    pymon_at (world (move self d r w1)) self = Some p2 ∧
    energy p1 = energy p - Z.of_nat (n / 2) ∧
    track_moves p1 = Z.of_nat (n `mod` 2) ∧
    match destination w1 self d with
    | Some _ =>
        if Nat.even (S n)
        then energy p2 = energy p1 - 1 ∧ track_moves p2 = 0
        else energy p2 = energy p1 ∧ track_moves p2 = 1
    | None => energy p2 = energy p1 ∧ track_moves p2 = track_moves p1
    end.
Proof.
  intros Hp Ht w1 n.
  destruct (after_moves_counts self ds w p Hp ltac:(lia)) as (p1 & Hp1 & Ht1 & He1).
  fold w1 in Hp1. fold n in Ht1, He1. rewrite Ht, Z.add_0_l in Ht1, He1.
  assert (Hdiv : Z.of_nat n `div` 2 = Z.of_nat (n / 2)).
  { by rewrite (Nat2Z.inj_div n 2). }
  assert (Hmod : Z.of_nat n `mod` 2 = Z.of_nat (n `mod` 2)).
  { by rewrite (Nat2Z.inj_mod n 2). }
  rewrite Hdiv in He1. rewrite Hmod in Ht1.
  destruct (destination w1 self d) as [nl|] eqn:Hdest.
  - exists p1, (moved nl p1). split; [done|].
    split; [by apply move_moved|]. split; [done|]. split; [done|].
    pose proof (Nat.mod_upper_bound n 2 ltac:(lia)) as Hlt.
    destruct (moved_counts nl p1 ltac:(lia)) as [Htm He].
    rewrite Htm, He, Ht1.
    destruct (Nat.even (S n)) eqn:Hev.
    + apply Nat.even_spec in Hev as [k Hk].
      assert ((n `mod` 2)%nat = 1%nat) as ->.
      { replace n with (1 + (k - 1) * 2)%nat by lia.
        by rewrite Nat.Div0.mod_add. }
      change ((Z.of_nat 1 + 1) `div` 2) with 1.
      change ((Z.of_nat 1 + 1) `mod` 2) with 0. done.
    + assert (Nat.odd (S n) = true) as Hodd by (by rewrite <- Nat.negb_even, Hev).
      apply Nat.odd_spec in Hodd as [k Hk].
      assert ((n `mod` 2)%nat = 0%nat) as ->.
      { replace n with (0 + k * 2)%nat by lia.
        by rewrite Nat.Div0.mod_add. }
      change ((Z.of_nat 0 + 1) `div` 2) with 0.
      change ((Z.of_nat 0 + 1) `mod` 2) with 1. split; [lia|done].
  - exists p1, p1. split; [done|].
    split; [by rewrite (move_stuck _ _ _ _ Hdest)|]. done.
Qed.

Lemma move_energy_law_witness :
  ∃ p1 p2,
    pymon_at (after_moves 0%nat back_and_forth forest_cave) 0%nat = Some p1 ∧
    pymon_at (world (move 0%nat "west" O
                 (after_moves 0%nat back_and_forth forest_cave))) 0%nat = Some p2 ∧
    energy p1 = 1 ∧ track_moves p1 = 1 ∧ energy p2 = 0 ∧ track_moves p2 = 0.
Proof.
  assert (Hn : successful_moves 0%nat back_and_forth forest_cave = 5%nat)
    by (vm_compute; reflexivity).
  assert (Hd : destination (after_moves 0%nat back_and_forth forest_cave)
                 0%nat "west" = Some 0%nat) by (vm_compute; reflexivity).
  destruct (move_energy_law 0%nat forest_cave _ back_and_forth "west" O
              eq_refl eq_refl) as (p1 & p2 & H1 & H2 & He & Ht & Hstep).
  rewrite Hd, Hn in Hstep. rewrite Hn in He, Ht.
  change (energy p1 = 1) in He. change (track_moves p1 = 1) in Ht.
  change (energy p2 = energy p1 - 1 ∧ track_moves p2 = 0) in Hstep.
  destruct Hstep as [He2 Ht2]. rewrite He in He2.
  exists p1, p2. repeat split; assumption.
Defined.

(** C4, at a failing input.  A new Pymon walks east, west, east, west, east
    between two connected rooms; its sixth move, back west, brings its energy
    to 0.  The room it arrives in has a neighbour to the east, yet an error
    is raised, the Pymon is still listed among the creatures of that room
    and it has been relocated nowhere. *)
Theorem sixth_move_escape_fails :
  let w5 := after_moves 0%nat back_and_forth forest_cave in
  let r := move 0%nat "west" O w5 in
  energy_of w5 0%nat = Some 1 ∧
  energy_of (world r) 0%nat = Some 0 ∧
  result r = Raise (TypeError "'dict_values' object is not subscriptable") ∧
  doors_of (world r) 0%nat ≫= (.!! "east") = Some (Some 1%nat) ∧
  current_location <$> pymon_at (world r) 0%nat = Some (Some 0%nat) ∧
  creatures <$> locs (world r) !! 0%nat = Some [1; 2; 0]%nat.
Proof. vm_compute. repeat split. Qed.

(** ** The round loop *)

(** What one pass can do to the tallies: nothing but a prompt or a draw, a
    round won, or a round lost at the price of one point of energy. *)
Lemma play_round_cases nick inp rnd m :
  let m' := play_round nick inp rnd m in
  (win m' = win m ∧ loss m' = loss m ∧ hp m' = hp m ∧
   (draw m' = draw m ∨ draw m' = draw m + 1)) ∨
  (win m' = win m + 1 ∧ loss m' = loss m ∧ hp m' = hp m ∧ draw m' = draw m) ∨
  (win m' = win m ∧ loss m' = loss m + 1 ∧ hp m' = hp m - 1 ∧ draw m' = draw m).
Proof.
  cbv zeta. unfold play_round.
  set (pt := lower (inp (asked m))).
  set (c := random_choice (rnd (drawn m)) (PyList rps)). clearbody pt c.
  destruct (negb (bool_decide (pt ∈ rps))); [simpl; left; auto 6|].
  destruct c as [t|e|]; try (left; auto 6; fail).
  destruct (bool_decide (pt = t)); [simpl; left; auto 6|].
  destruct (beats pt t); simpl; [right; left|right; right]; auto.
Qed.

Lemma tallied_kickoff e : tallied e (kickoff e).
Proof. unfold tallied, kickoff; simpl. lia. Qed.

Lemma playing_true m :
  playing m = true ↔ win m < 2 ∧ loss m < 2 ∧ 0 < hp m.
Proof. unfold playing. rewrite !andb_true_iff, !Z.ltb_lt. tauto. Qed.

Lemma playing_false m :
  playing m = false ↔ 2 ≤ win m ∨ 2 ≤ loss m ∨ hp m ≤ 0.
Proof.
  unfold playing. rewrite !andb_false_iff, !Z.ltb_ge. tauto.
Qed.

Lemma tallied_play_round e nick inp rnd m :
  tallied e m → playing m = true → tallied e (play_round nick inp rnd m).
Proof.
  intros (Hw & Hl & Hd & Hwin & Hhp & Hmin) Hplay.
  apply playing_true in Hplay as (? & ? & ?).
  pose proof (play_round_cases nick inp rnd m) as Hc. simpl in Hc.
  unfold tallied.
  destruct Hc as [(-> & -> & -> & Hdr)|[(-> & -> & -> & ->)|(-> & -> & -> & ->)]];
    lia.
Qed.

(** When the loop ends, its condition is false and the tallies are sound. *)
Lemma rounds_tallied e nick inp rnd fuel : ∀ m m',
  tallied e m → rounds fuel nick inp rnd m = Some m' →
  tallied e m' ∧ playing m' = false.
Proof.
  induction fuel as [|fuel IH]; intros m m' Ht; simpl;
    destruct (playing m) eqn:Hp; try done.
  - intros [= <-]. done.
  - intros H. eapply IH; [|exact H]. by apply tallied_play_round.
  - intros [= <-]. done.
Qed.

(** More fuel does not change the outcome. *)
Lemma rounds_more_fuel nick inp rnd fuel : ∀ m m' fuel',
  rounds fuel nick inp rnd m = Some m' → (fuel ≤ fuel')%nat →
  rounds fuel' nick inp rnd m = Some m'.
Proof.
  induction fuel as [|fuel IH]; intros m m' fuel'; simpl;
    destruct (playing m) eqn:Hp; try done.
  - intros [= <-] _. destruct fuel'; simpl; by rewrite Hp.
  - intros H Hle. destruct fuel' as [|fuel']; [lia|]. simpl. rewrite Hp.
    apply IH; [done|lia].
  - intros [= <-] _. destruct fuel'; simpl; by rewrite Hp.
Qed.

Lemma play_round_decisive nick inp rnd n m :
  let m' := play_round nick inp rnd m in
  Z.of_nat (decisive (S n) inp rnd (asked m) (drawn m))
  ≤ Z.of_nat (decisive n inp rnd (asked m') (drawn m'))
    + (win m' + loss m') - (win m + loss m) ∧
  win m ≤ win m' ∧ loss m ≤ loss m'.
Proof.
  cbv zeta. cbn [decisive]. unfold play_round.
  set (pt := lower (inp (asked m))).
  set (c := random_choice (rnd (drawn m)) (PyList rps)). clearbody pt c.
  destruct (negb (bool_decide (pt ∈ rps))); [simpl; lia|].
  destruct c as [t|e|]; try lia.
  destruct (bool_decide (pt = t)); [simpl; lia|].
  destruct (beats pt t); simpl; lia.
Qed.

(** Three rounds with a winner settle any match: the loop has ended by the
    time the streams have delivered them. *)
Lemma rounds_terminate nick inp rnd n : ∀ m,
  0 ≤ win m → 0 ≤ loss m →
  3 - win m - loss m ≤ Z.of_nat (decisive n inp rnd (asked m) (drawn m)) →
  ∃ m', rounds n nick inp rnd m = Some m'.
Proof.
  induction n as [|n IH]; intros m Hw Hl Hdec.
  - simpl in *. destruct (playing m) eqn:Hp; [|by eexists].
    apply playing_true in Hp. lia.
  - cbn [rounds]. destruct (playing m) eqn:Hp; [|by eexists].
    pose proof (play_round_decisive nick inp rnd n m) as Hstep.
    cbv zeta in Hstep. apply IH; lia.
Qed.

(** ** Pymon.Challenge *)

Lemma world_after {A} out (r : Run A) : world (after out r) = world r.
Proof. reflexivity. Qed.

Lemma result_after {A} out (r : Run A) : result (after out r) = result r.
Proof. reflexivity. Qed.

Lemma after_mkRun {A} out (x : Res A) w out' :
  after out (mkRun x w out') = mkRun x w (out ++ out').
Proof. reflexivity. Qed.

(** The search for the opponent reads the store and nothing else. *)
Lemma find_opponent_pure creature_name cs : ∀ w,
  ∃ res, find_opponent creature_name cs w = mkRun res w [] ∧ res ≠ OutOfFuel.
Proof.
  induction cs as [|c cs IH]; intros w; simpl; [by eexists|].
  destruct (objs w !! c) as [x|] eqn:Hc.
  - rewrite (bind_get_obj _ _ _ _ Hc). case_bool_decide; [by eexists|apply IH].
  - eexists. split; [apply bind_raised; unfold get_obj; by rewrite Hc|done].
Qed.

(** The opponent found is listed in the room and bears the name asked for. *)
Lemma find_opponent_present creature_name cs w opp :
  find_opponent creature_name cs w = mkRun (Ok (Some opp)) w [] →
  opp ∈ cs ∧ ∃ o, objs w !! opp = Some o ∧ nickname o = creature_name.
Proof.
  induction cs as [|c cs IH]; simpl; [done|].
  destruct (objs w !! c) as [x|] eqn:Hc.
  - rewrite (bind_get_obj _ _ _ _ Hc). case_bool_decide as Hn.
    + intros [= <-]. split; [left|by exists x].
    + intros H. destruct (IH H) as [Hin Ho]. split; [by right|done].
  - rewrite (bind_raised _ _ _ NoSuchObject w []); [done|].
    unfold get_obj. by rewrite Hc.
Qed.

Lemma add_battle_spec s pymon_name opp w d l now :
  battles (add_battle s pymon_name opp w d l now)
  = <[pymon_name := default [] (battles s !! pymon_name)
        ++ [{| timestamp := now; opponent := opp; wins := w; draws := d;
               losses := l |}]]> (battles s).
Proof.
  unfold add_battle; simpl. apply map_eq; intros k.
  destruct (decide (pymon_name = k)) as [->|Hne].
  - rewrite lookup_alter_eq, lookup_insert_eq.
    destruct (battles s !! k) eqn:Hk; simpl.
    + by rewrite Hk.
    + by rewrite lookup_insert_eq.
  - rewrite lookup_alter_ne, lookup_insert_ne by done.
    destruct (battles s !! pymon_name); [done|]. by rewrite lookup_insert_ne.
Qed.

Lemma battle_run fuel self inp rnd w me p m :
  objs w !! self = Some me → as_pymon me = Some p →
  rounds fuel (nickname me) inp rnd (kickoff (energy p)) = Some m →
  battle fuel self inp rnd w
  = mkRun (Ok m) (upd_pymon self (set_energy (hp m)) w) (printed m).
Proof.
  intros Hme Hp Hr. unfold battle.
  rewrite (bind_get_obj _ _ _ _ Hme), (bind_get_pymon _ _ _ p).
  2:{ unfold pymon_at. by rewrite Hme. }
  rewrite Hr, bind_modify, bind_say. unfold after, ret; simpl.
  by rewrite app_nil_r.
Qed.

Lemma battle_out_of_fuel fuel self inp rnd w me p :
  objs w !! self = Some me → as_pymon me = Some p →
  rounds fuel (nickname me) inp rnd (kickoff (energy p)) = None →
  battle fuel self inp rnd w = mkRun OutOfFuel w [].
Proof.
  intros Hme Hp Hr. unfold battle.
  rewrite (bind_get_obj _ _ _ _ Hme), (bind_get_pymon _ _ _ p).
  2:{ unfold pymon_at. by rewrite Hme. }
  by rewrite Hr.
Qed.

(** A challenge against an adoptable opponent other than [self]: the loop,
    then what follows it. *)
Lemma Challenge_adoptable fuel self creature_name inp rnd now w me p cur l opp o :
  objs w !! self = Some me → as_pymon me = Some p →
  current_location p = Some cur → locs w !! cur = Some l →
  find_opponent creature_name (creatures l) w = mkRun (Ok (Some opp)) w [] →
  opp ≠ self → objs w !! opp = Some o → adoptable o = true →
  Challenge fuel self creature_name inp rnd now w
  = match rounds fuel (nickname me) inp rnd (kickoff (energy p)) with
    | Some m =>
        after (("You started the challenge with " +:+ nickname o +:+ "!")
               :: printed m)
          (aftermath self cur opp me o m now
             (upd_pymon self (set_energy (hp m)) w))
    | None =>
        mkRun OutOfFuel w ["You started the challenge with " +:+ nickname o +:+ "!"]
    end.
Proof.
  intros Hme Hp Hcur Hl Hfind Hne Ho Had. unfold Challenge.
  rewrite (bind_get_pymon _ _ _ p) by (unfold pymon_at; by rewrite Hme).
  rewrite Hcur, (bind_get_loc _ _ _ _ Hl).
  rewrite (bind_run _ _ _ _ _ _ Hfind), after_nil.
  rewrite (bool_decide_eq_false_2 _ Hne), (bind_get_obj _ _ _ _ Ho), Had.
  cbn [negb]. rewrite (bind_get_obj _ _ _ _ Hme), bind_print.
  destruct (rounds fuel (nickname me) inp rnd (kickoff (energy p))) as [m|] eqn:Hr.
  - rewrite (bind_run _ _ _ _ _ _ (battle_run _ _ _ _ _ _ _ _ Hme Hp Hr)).
    unfold after; simpl. by f_equal.
  - unfold mbind, Py_bind, bind.
    by rewrite (battle_out_of_fuel _ _ _ _ _ _ _ Hme Hp Hr).
Qed.

Lemma pymon_at_upd_pymon_any o o' f w :
  pymon_at (upd_pymon o f w) o'
  = if decide (o = o') then f <$> pymon_at w o' else pymon_at w o'.
Proof.
  case_decide as H; [subst; apply pymon_at_upd_pymon|].
  by apply pymon_at_upd_pymon_ne.
Qed.

Lemma self_has_upd_pymon self e bs o f w :
  keeps f → self_has self e bs w → self_has self e bs (upd_pymon o f w).
Proof.
  intros Hf (p & Hp & He & Hbs). unfold self_has.
  rewrite pymon_at_upd_pymon_any, Hp.
  case_decide; [|by exists p]. exists (f p). destruct (Hf p) as [-> ->]. done.
Qed.

Lemma self_has_upd_loc self e bs l f w :
  self_has self e bs w → self_has self e bs (upd_loc l f w).
Proof. done. Qed.

Lemma keeps_set_pets v : keeps (set_pets v).
Proof. done. Qed.

Lemma keeps_set_inventory v : keeps (set_inventory v).
Proof. done. Qed.

Lemma keeps_set_current_location v : keeps (set_current_location v).
Proof. done. Qed.

Lemma preserves_creatures_remove self e bs loc x :
  preserves (self_has self e bs) (creatures_remove loc x).
Proof.
  apply preserves_bind; [apply preserves_get_loc|]. intros l.
  case_bool_decide; [|apply preserves_raise].
  apply preserves_modify. intros w. apply self_has_upd_loc.
Qed.

Lemma bind_alloc {B} (k : nat → Py B) w c :
  (alloc c ≫= k) w
  = k (fresh (dom (objs w)))
      {| locs := locs w; objs := <[fresh (dom (objs w)) := c]> (objs w) |}.
Proof.
  unfold mbind, Py_bind, bind, alloc; simpl.
  by destruct (k _ _).
Qed.

(** Whatever branch is taken after the loop, and however it ends, [self]
    keeps the energy the loop left and has the battle recorded once. *)
Lemma aftermath_self self cur opp me o m now w p :
  pymon_at w self = Some p →
  let r := aftermath self cur opp me o m now w in
  result r ≠ OutOfFuel ∧
  self_has self (energy p)
    (add_battle (battle_stats p) (nickname me) (nickname o)
       (win m) (draw m) (loss m) now) (world r).
Proof.
  intros Hp r. unfold r, aftermath. rewrite bind_modify.
  set (bs := add_battle _ _ _ _ _ _ _).
  set (w1 := upd_pymon self _ w).
  assert (H1 : self_has self (energy p) bs w1).
  { unfold self_has, w1. rewrite pymon_at_upd_pymon, Hp. by eexists. }
  clearbody w1.
  destruct (2 <=? win m).
  - rewrite bind_print, result_after, world_after, bind_alloc, !bind_modify.
    set (c := fresh (dom (objs w1))).
    assert (Hc : c ≠ self).
    { intros Heq. destruct H1 as (p1 & Hp1 & _). unfold pymon_at in Hp1.
      destruct (objs w1 !! self) as [x|] eqn:Hx; [|done].
      apply (is_fresh (dom (objs w1))). fold c. rewrite Heq.
      apply elem_of_dom. by eexists. }
    cut (self_has self (energy p) bs
           (upd_pymon self (λ p0, set_pets (pets p0 ++ [c]) p0)
              (upd_pymon c (set_energy enery_max)
                 {| locs := locs w1;
                    objs := <[c := new_Pymon (nickname o) (description o) (location o)]>
                              (objs w1) |}))).
    { intros H. destruct (preserves_creatures_remove self (energy p) bs cur opp _ H).
      done. }
    apply self_has_upd_pymon; [done|].
    destruct H1 as (p1 & Hp1 & He1 & Hb1). exists p1.
    rewrite pymon_at_upd_pymon_ne; [|done]. split; [|done].
    unfold pymon_at in *; simpl. by rewrite lookup_insert_ne.
  - rewrite bind_print, result_after, world_after.
    cut (preserves (self_has self (energy p) bs)
      (get_pymon self ≫= λ p0,
        match pets p0 with
        | [] => print "You dont have any Pymon left to help you in this game. GAME OVER!";;
                raise (SystemExit 0)
        | next_pymon :: rest =>
            modify (upd_pymon self (set_pets rest));;
            modify (upd_pymon next_pymon
                      (λ q, set_inventory (_inventory q ++ _inventory p0) q));;
            modify (upd_pymon self (set_inventory []));;
            n ← get_obj next_pymon;
            print (nickname n +:+ " is now your primary Pymon.");;
            q ← get_pymon next_pymon;
            modify (upd_pymon self (set_current_location (current_location q)))
        end)).
    { intros H. destruct (H w1 H1). done. }
    apply preserves_bind; [apply preserves_get_pymon|]. intros p0.
    destruct (pets p0) as [|next rest].
    + apply preserves_bind; [apply preserves_print|]. intros _. apply preserves_raise.
    + repeat (apply preserves_bind;
        [first [apply preserves_print | apply preserves_get_obj
               | apply preserves_get_pymon
               | apply preserves_modify; intros ?; by apply self_has_upd_pymon]
        | intros ?]).
      apply preserves_modify; intros ?; by apply self_has_upd_pymon.
Qed.

Lemma objs_upd_pymon o o' f w :
  objs (upd_pymon o f w) !! o'
  = (if decide (o = o') then on_pymon f else id) <$> objs w !! o'.
Proof.
  unfold upd_pymon; simpl. case_decide as H.
  - subst. by rewrite lookup_alter_eq.
  - rewrite lookup_alter_ne by done. by destruct (objs w !! o').
Qed.

(** A lost match with no pet left: the battle is recorded and the program
    exits. *)
Lemma aftermath_game_over self cur opp me o m now w p :
  (2 <=? win m) = false → pymon_at w self = Some p → pets p = [] →
  aftermath self cur opp me o m now w
  = mkRun (Raise (SystemExit 0)) (with_record self me o m now w)
      ["Lost the battle. " +:+ nickname me +:+ " ran away into the wild.";
       "You dont have any Pymon left to help you in this game. GAME OVER!"].
Proof.
  intros Hw Hp Hpets. unfold aftermath. rewrite bind_modify, Hw, bind_print.
  fold (with_record self me o m now w).
  erewrite bind_get_pymon.
  2:{ unfold with_record. rewrite pymon_at_upd_pymon, Hp. reflexivity. }
  cbn [pets set_battle_stats]. rewrite Hpets, bind_print. reflexivity.
Qed.

(** A lost match with a pet in front of the bench: what the branch does to
    the store, step by step. *)
Lemma aftermath_pet_promoted self cur opp me o m now w p next rest n q :
  (2 <=? win m) = false → pymon_at w self = Some p → pets p = next :: rest →
  objs w !! next = Some n → as_pymon n = Some q →
  aftermath self cur opp me o m now w
  = mkRun (Ok tt)
      (with_pet_promoted self next rest p q (with_record self me o m now w))
      ["Lost the battle. " +:+ nickname me +:+ " ran away into the wild.";
       nickname n +:+ " is now your primary Pymon."].
Proof.
  intros Hw Hp Hpets Hn Hq. unfold aftermath. rewrite bind_modify, Hw, bind_print.
  fold (with_record self me o m now w). set (w1 := with_record self me o m now w).
  erewrite bind_get_pymon.
  2:{ unfold w1, with_record. rewrite pymon_at_upd_pymon, Hp. reflexivity. }
  cbn [pets set_battle_stats _inventory]. rewrite Hpets, !bind_modify.
  set (w4 := upd_pymon self (set_inventory []) _).
  assert (Hn4 : ∃ n4 q4, objs w4 !! next = Some n4 ∧ nickname n4 = nickname n ∧
            as_pymon n4 = Some q4 ∧ current_location q4 = current_location q).
  { unfold w4, w1, with_record. rewrite !objs_upd_pymon, Hn.
    destruct n as [nn nd nl na np]; simpl in Hq; subst np.
    repeat case_decide; try congruence; simpl; eexists _, _;
      (split; [reflexivity|]); simpl; done. }
  destruct Hn4 as (n4 & q4 & Hn4 & Hnick & Hq4 & Hloc).
  rewrite (bind_get_obj _ _ _ _ Hn4), bind_print, (bind_get_pymon _ _ _ q4).
  2:{ unfold pymon_at. by rewrite Hn4. }
  rewrite Hnick, Hloc. reflexivity.
Qed.

Lemma random_choice_list {A} (r : nat) (l : list A) :
  l ≠ [] → ∃ x, random_choice r (PyList l) = Ok x ∧ x ∈ l.
Proof.
  intros Hl. unfold random_choice.
  assert (Hlen : (r `mod` length l < length l)%nat).
  { apply Nat.mod_upper_bound. by destruct l. }
  destruct (lookup_lt_is_Some_2 l _ Hlen) as [x Hx]. rewrite Hx.
  exists x. split; [done|]. by eapply list_elem_of_lookup_2.
Qed.

(** C7: challenging a creature that is not adoptable changes nothing.  When
    the name resolves to a creature of the current location other than the
    challenger and that creature is not adoptable, the call returns
    normally, has printed exactly one line, one of the three flavor lines,
    and the store is the one of before: energy, inventory, pets and location
    of the challenger, the creature and item lists of every location and
    every battle history, so that no battle has been recorded. *)
Theorem Challenge_non_adoptable fuel self creature_name inp rnd now w p cur l opp o :
  pymon_at w self = Some p →
  current_location p = Some cur →
  locs w !! cur = Some l →
  find_opponent creature_name (creatures l) w = mkRun (Ok (Some opp)) w [] →
  opp ≠ self →
  objs w !! opp = Some o →
  adoptable o = false →
  opp ∈ creatures l ∧ nickname o = creature_name ∧
  ∃ line, line ∈ random_dialogue (nickname o) ∧
    Challenge fuel self creature_name inp rnd now w = mkRun (Ok tt) w [line].
Proof.
  intros Hp Hcur Hl Hfind Hne Ho Had.
  destruct (find_opponent_present _ _ _ _ Hfind) as (Hin & o' & Ho' & Hnick).
  assert (o' = o) as -> by congruence.
  split; [done|]. split; [done|].
  destruct (random_choice_list (rnd O) (random_dialogue (nickname o)))
    as (line & Hline & Hmem); [done|].
  exists line. split; [done|]. unfold Challenge.
  rewrite (bind_get_pymon _ _ _ _ Hp), Hcur, (bind_get_loc _ _ _ _ Hl).
  rewrite (bind_run _ _ _ _ _ _ Hfind), after_nil.
  rewrite (bool_decide_eq_false_2 _ Hne), (bind_get_obj _ _ _ _ Ho), Had.
  cbn [negb]. rewrite Hline, bind_lift_ok. reflexivity.
Qed.

(** Either a challenge leaves the store alone, or it is a battle against an
    adoptable creature of the room. *)
Lemma Challenge_cases fuel self creature_name inp rnd now w p :
  pymon_at w self = Some p →
  (world (Challenge fuel self creature_name inp rnd now w) = w ∧
   result (Challenge fuel self creature_name inp rnd now w) ≠ OutOfFuel) ∨
  ∃ me cur l opp o,
    objs w !! self = Some me ∧ as_pymon me = Some p ∧
    current_location p = Some cur ∧ locs w !! cur = Some l ∧
    find_opponent creature_name (creatures l) w = mkRun (Ok (Some opp)) w [] ∧
    opp ≠ self ∧ objs w !! opp = Some o ∧ adoptable o = true.
Proof.
  intros Hp.
  assert (∃ me, objs w !! self = Some me ∧ as_pymon me = Some p) as (me & Hme & Hmp).
  { unfold pymon_at in Hp. destruct (objs w !! self) as [me|]; [|done].
    by exists me. }
  unfold Challenge. rewrite (bind_get_pymon _ _ _ _ Hp).
  destruct (current_location p) as [cur|] eqn:Hcur; [|by left].
  destruct (locs w !! cur) as [l|] eqn:Hl.
  2:{ left. by rewrite (bind_raised _ _ _ _ _ _ (get_loc_fails _ _ Hl)). }
  rewrite (bind_get_loc _ _ _ _ Hl).
  destruct (find_opponent_pure creature_name (creatures l) w) as (res & Hfind & Hres).
  destruct res as [[opp|]|e|]; [| | |done].
  - rewrite (bind_run _ _ _ _ _ _ Hfind), after_nil.
    case_bool_decide as Hself; [by left|].
    destruct (objs w !! opp) as [o|] eqn:Ho.
    2:{ left. rewrite (bind_raised _ _ _ NoSuchObject w []); [done|].
        unfold get_obj. by rewrite Ho. }
    rewrite (bind_get_obj _ _ _ _ Ho).
    destruct (adoptable o) eqn:Had.
    + right. by exists me, cur, l, opp, o.
    + left. cbn [negb].
      destruct (random_choice_list (rnd O) (random_dialogue (nickname o)))
        as (line & Hline & _); [done|].
      by rewrite Hline, bind_lift_ok.
  - left. by rewrite (bind_run _ _ _ _ _ _ Hfind), after_nil.
  - left. by rewrite (bind_raised _ _ _ _ _ _ Hfind).
Qed.

(** A challenge never raises the energy of the challenger, and never takes
    it below 0 unless it was there already. *)
Lemma Challenge_energy fuel self creature_name inp rnd now w p :
  pymon_at w self = Some p →
  ∃ p', pymon_at (world (Challenge fuel self creature_name inp rnd now w)) self
        = Some p' ∧
        energy p' ≤ energy p ∧ Z.min (energy p) 0 ≤ energy p'.
Proof.
  intros Hp.
  destruct (Challenge_cases fuel self creature_name inp rnd now w p Hp)
    as [[-> _]|(me & cur & l & opp & o & Hme & Hmp & Hcur & Hl & Hfind & Hne & Ho & Had)].
  { exists p. split; [done|lia]. }
  rewrite (Challenge_adoptable _ _ _ _ _ _ _ _ _ _ _ _ _ Hme Hmp Hcur Hl Hfind Hne Ho Had).
  destruct (rounds fuel (nickname me) inp rnd (kickoff (energy p))) as [m|] eqn:Hr.
  2:{ exists p. split; [done|lia]. }
  destruct (rounds_tallied _ _ _ _ _ _ _ (tallied_kickoff (energy p)) Hr)
    as [(Hw & Hlo & Hd & Hwin & Hhp & Hmin) Hplay].
  rewrite world_after.
  destruct (aftermath_self self cur opp me o m now
              (upd_pymon self (set_energy (hp m)) w) (set_energy (hp m) p))
    as (_ & p' & Hp' & He & _).
  { by rewrite pymon_at_upd_pymon, Hp. }
  exists p'. split; [done|]. rewrite He; simpl. lia.
Qed.

(** C10: a challenge started with energy 0.  Against an adoptable creature
    of the room other than the challenger, the loop ends before its first
    pass, whatever the fuel: nothing is asked, nothing is drawn.  A record
    with no win, no draw and no loss is appended to the history, and the
    branch of the lost match is taken: with no pet the program exits; with a
    pet in front of the bench the branch pops it, hands it the inventory,
    empties the inventory of the challenger and moves the challenger's
    location reference to that of the pet. *)
Theorem Challenge_at_zero_energy fuel self creature_name inp rnd now w me p cur l opp o :
  objs w !! self = Some me →
  as_pymon me = Some p →
  current_location p = Some cur →
  locs w !! cur = Some l →
  find_opponent creature_name (creatures l) w = mkRun (Ok (Some opp)) w [] →
  opp ≠ self →
  objs w !! opp = Some o →
  adoptable o = true →
  energy p = 0 →
  let r := Challenge fuel self creature_name inp rnd now w in
  let m := kickoff 0 in
  let w1 := with_record self me o m now (upd_pymon self (set_energy 0) w) in
  rounds fuel (nickname me) inp rnd (kickoff (energy p)) = Some m ∧
  (∃ p', pymon_at (world r) self = Some p' ∧
     battles (battle_stats p')
     = <[nickname me := default [] (battles (battle_stats p) !! nickname me)
           ++ [{| timestamp := now; opponent := nickname o;
                  wins := 0; draws := 0; losses := 0 |}]]>
         (battles (battle_stats p))) ∧
  match pets p with
  | [] =>
      r = mkRun (Raise (SystemExit 0)) w1
            ["You started the challenge with " +:+ nickname o +:+ "!";
             "Lost the battle. " +:+ nickname me +:+ " ran away into the wild.";
             "You dont have any Pymon left to help you in this game. GAME OVER!"]
  | next_pymon :: rest =>
      ∀ n q, objs w !! next_pymon = Some n → as_pymon n = Some q →
        r = mkRun (Ok tt)
              (with_pet_promoted self next_pymon rest p q w1)
              ["You started the challenge with " +:+ nickname o +:+ "!";
               "Lost the battle. " +:+ nickname me +:+ " ran away into the wild.";
               nickname n +:+ " is now your primary Pymon."]
  end.
Proof.
  intros Hme Hmp Hcur Hl Hfind Hne Ho Had He r m w1.
  assert (Hr : rounds fuel (nickname me) inp rnd (kickoff (energy p)) = Some m).
  { rewrite He. by destruct fuel. }
  assert (Hp : pymon_at w self = Some p) by (unfold pymon_at; by rewrite Hme).
  assert (Hp0 : pymon_at (upd_pymon self (set_energy 0) w) self
                = Some (set_energy 0 p)) by (by rewrite pymon_at_upd_pymon, Hp).
  assert (Hrun : r = after ["You started the challenge with " +:+ nickname o +:+ "!"]
            (aftermath self cur opp me o m now (upd_pymon self (set_energy 0) w))).
  { unfold r.
    by rewrite (Challenge_adoptable _ _ _ _ _ _ _ _ _ _ _ _ _
                  Hme Hmp Hcur Hl Hfind Hne Ho Had), Hr. }
  split; [done|]. split.
  - destruct (aftermath_self self cur opp me o m now _ _ Hp0)
      as (_ & p' & Hp' & _ & Hbs).
    exists p'. rewrite Hrun, world_after. split; [done|].
    by rewrite Hbs, add_battle_spec.
  - destruct (pets p) as [|next rest] eqn:Hpets.
    + by rewrite Hrun, (aftermath_game_over self cur opp me o m now _ _
                          eq_refl Hp0 Hpets).
    + intros n q Hn Hq. rewrite Hrun.
      destruct (decide (self = next)) as [Heq|Hneq].
      * rewrite (aftermath_pet_promoted self cur opp me o m now _ (set_energy 0 p)
                   next rest (on_pymon (set_energy 0) n) (set_energy 0 q)
                   eq_refl Hp0 Hpets); [reflexivity| |by simpl; rewrite Hq].
        rewrite objs_upd_pymon, Hn. by rewrite decide_True.
      * rewrite (aftermath_pet_promoted self cur opp me o m now _ (set_energy 0 p)
                   next rest n q eq_refl Hp0 Hpets); [reflexivity| |done].
        rewrite objs_upd_pymon, Hn. by rewrite decide_False.
Qed.

(** Rock against rock, for ever: a pass of the loop changes nothing that its
    condition reads. *)
Lemma play_round_draw nick m :
  let m' := play_round nick (always "rock") rock m in
  win m' = win m ∧ loss m' = loss m ∧ hp m' = hp m.
Proof.
  cbv zeta. unfold play_round, always.
  rewrite (lower_ascii_text "rock") by done. done.
Qed.

Lemma rounds_draw_forever nick fuel : ∀ m,
  playing m = true → rounds fuel nick (always "rock") rock m = None.
Proof.
  induction fuel as [|fuel IH]; intros m Hp; cbn [rounds]; rewrite Hp; [done|].
  apply IH. destruct (play_round_draw nick m) as (Hw & Hl & Hh).
  unfold playing in *. by rewrite Hw, Hl, Hh.
Qed.

(** A pass of the loop and the count of the rounds with a winner: the pass
    is counted exactly when it changes the tallies, and then it adds one to
    the wins or to the losses. *)
Lemma play_round_counted nick inp rnd m :
  let m' := play_round nick inp rnd m in
  ∃ δ : nat,
    (∀ n, decisive (S n) inp rnd (asked m) (drawn m)
          = (δ + decisive n inp rnd (asked m') (drawn m'))%nat) ∧
    ((δ = 0%nat ∧ win m' = win m ∧ loss m' = loss m ∧ hp m' = hp m) ∨
     (δ = 1%nat ∧ win m' + loss m' = win m + loss m + 1 ∧
      win m ≤ win m' ∧ loss m ≤ loss m')).
Proof.
  cbv zeta. cbn [decisive]. unfold play_round.
  destruct (random_choice_list (rnd (drawn m)) rps) as (t & Ht & _); [done|].
  rewrite Ht. set (pt := lower (inp (asked m))). clearbody pt.
  destruct (negb (bool_decide (pt ∈ rps))).
  { exists 0%nat. split; [done|]. left. done. }
  destruct (bool_decide (pt = t)).
  { exists 0%nat. split; [done|]. left. done. }
  exists 1%nat. split; [by destruct (beats pt t)|]. right.
  destruct (beats pt t); simpl; lia.
Qed.

(** A loop that has ended after it was running has read a round with a
    winner. *)
Lemma rounds_ended_counted nick inp rnd : ∀ N m mf,
  playing m = true → rounds N nick inp rnd m = Some mf →
  (0 < decisive N inp rnd (asked m) (drawn m))%nat.
Proof.
  induction N as [|N IH]; intros m mf Hp; cbn [rounds]; rewrite Hp; [done|].
  intros Hr.
  destruct (play_round_counted nick inp rnd m) as (δ & Hcount & Hcase).
  cbv zeta in Hcount, Hcase. rewrite Hcount.
  destruct Hcase as [(-> & Hw & Hl & Hh)|(-> & _)]; [|lia].
  simpl. apply (IH _ mf); [|done].
  unfold playing in *. by rewrite Hw, Hl, Hh.
Qed.

(** If the loop is still running after [n] passes and has ended after [N],
    then a round with a winner lies between. *)
Lemma rounds_ended_later nick inp rnd : ∀ n N m mf,
  rounds n nick inp rnd m = None → rounds N nick inp rnd m = Some mf →
  (decisive n inp rnd (asked m) (drawn m)
   < decisive N inp rnd (asked m) (drawn m))%nat.
Proof.
  induction n as [|n IH]; intros N m mf Hn HN.
  - assert (Hp : playing m = true).
    { cbn [rounds] in Hn. by destruct (playing m). }
    simpl. by eapply rounds_ended_counted.
  - cbn [rounds] in Hn. destruct (playing m) eqn:Hp; [|done].
    destruct N as [|N]; cbn [rounds] in HN; rewrite Hp in HN; [done|].
    destruct (play_round_counted nick inp rnd m) as (δ & Hcount & _).
    cbv zeta in Hcount. rewrite !Hcount.
    pose proof (IH N _ mf Hn HN). lia.
Qed.

(** The condition passes from one pass of a running loop to the next. *)
Lemma winner_follows_next nick inp rnd m :
  playing m = true → winner_follows nick inp rnd m →
  winner_follows nick inp rnd (play_round nick inp rnd m).
Proof.
  intros Hp Hfair n Hn.
  destruct (Hfair (S n)) as [k Hk]; [cbn [rounds]; by rewrite Hp|].
  destruct (play_round_counted nick inp rnd m) as (δ & Hcount & _).
  cbv zeta in Hcount. destruct k as [|k]; [simpl in Hk; lia|].
  rewrite !Hcount in Hk. exists k. lia.
Qed.

(** The loop ends when a round with a winner always follows while it is
    running: no match needs more than three of them. *)
Lemma rounds_settle nick inp rnd : ∀ (d : nat) m,
  0 ≤ win m → 0 ≤ loss m → 3 - win m - loss m ≤ Z.of_nat d →
  winner_follows nick inp rnd m →
  ∃ n, is_Some (rounds n nick inp rnd m).
Proof.
  induction d as [|d IHd]; intros m Hw Hl Hd Hfair.
  { exists O. cbn [rounds]. destruct (playing m) eqn:Hp; [|by eexists].
    apply playing_true in Hp. lia. }
  destruct (playing m) eqn:Hp;
    [|exists O; cbn [rounds]; rewrite Hp; by eexists].
  destruct (Hfair O) as [k Hk]; [cbn [rounds]; by rewrite Hp|].
  simpl in Hk. revert m Hw Hl Hd Hfair Hp Hk.
  induction k as [|k IHk]; intros m Hw Hl Hd Hfair Hp Hk; [simpl in Hk; lia|].
  pose proof (winner_follows_next _ _ _ _ Hp Hfair) as Hnext.
  destruct (play_round_counted nick inp rnd m) as (δ & Hcount & Hcase).
  cbv zeta in Hcount, Hcase. rewrite Hcount in Hk.
  assert (Hgo : (∃ n, is_Some (rounds n nick inp rnd (play_round nick inp rnd m)))
                → ∃ n, is_Some (rounds n nick inp rnd m)).
  { intros [n Hn]. exists (S n). cbn [rounds]. by rewrite Hp. }
  apply Hgo.
  destruct Hcase as [(-> & Hw' & Hl' & Hh')|(-> & Hsum & Hw' & Hl')].
  - apply IHk; [lia..|done| |done].
    unfold playing in *. by rewrite Hw', Hl', Hh'.
  - apply IHd; [lia..|done].
Qed.

(** C1 (amended): a challenge against an adoptable creature of the room,
    other than the challenger.  Invalid inputs and draws are asked again
    without limit, so the loop of rounds ends exactly when the keyboard and
    the random generator do not keep delivering them for ever while the match
    is undecided: it ends if and only if, whenever it is still running after
    [n] passes, a round with a winner follows later.  Three rounds with a
    winner among the first [n] prompts are always enough to end it within
    [n] passes.  When the loop has ended after [n] passes with the tallies
    [m], it has ended with the same tallies for every fuel from [n] on.  At
    the exit at least one of [win >= 2], [loss >= 2], [energy <= 0] holds;
    two wins exclude the other two (two losses and energy 0 may come
    together), and the energy has not gone below 0 if it started at 0 or
    more.  The call records the battle once: the history of the challenger
    under its nickname is the one of before followed by one record carrying
    the final tallies, and the other histories are untouched. *)
Theorem Challenge_settles self creature_name inp rnd now w me p cur l opp o :
  objs w !! self = Some me →
  as_pymon me = Some p →
  current_location p = Some cur →
  locs w !! cur = Some l →
  find_opponent creature_name (creatures l) w = mkRun (Ok (Some opp)) w [] →
  opp ≠ self →
  objs w !! opp = Some o →
  adoptable o = true →
  let loop fuel := rounds fuel (nickname me) inp rnd (kickoff (energy p)) in
  ((∃ n, is_Some (loop n)) ↔
   (∀ n, loop n = None →
      ∃ k, (decisive n inp rnd O O < decisive k inp rnd O O)%nat)) ∧
  (∀ n, (3 ≤ decisive n inp rnd O O)%nat → is_Some (loop n)) ∧
  ∀ n m, loop n = Some m →
    (∀ fuel, (n ≤ fuel)%nat → loop fuel = Some m) ∧
    (2 ≤ win m ∨ 2 ≤ loss m ∨ hp m ≤ 0) ∧
    (2 ≤ win m → loss m < 2 ∧ 0 < hp m) ∧
    (0 ≤ energy p → 0 ≤ hp m) ∧
    ∀ fuel, (n ≤ fuel)%nat →
      let r := Challenge fuel self creature_name inp rnd now w in
      result r ≠ OutOfFuel ∧
      ∃ p', pymon_at (world r) self = Some p' ∧ energy p' = hp m ∧
        battles (battle_stats p')
        = <[nickname me := default [] (battles (battle_stats p) !! nickname me)
              ++ [recorded (nickname o) m now]]> (battles (battle_stats p)).
Proof.
  intros Hme Hmp Hcur Hl Hfind Hne Ho Had loop. unfold loop. clear loop.
  split; [split|split].
  - intros [N [mf HN]] n Hn. exists N.
    apply (rounds_ended_later _ _ _ _ _ _ _ Hn HN).
  - intros Hfair.
    apply (rounds_settle (nickname me) inp rnd 3); [simpl; lia..|exact Hfair].
  - intros n Hdec.
    destruct (rounds_terminate (nickname me) inp rnd n (kickoff (energy p)))
      as [m Hm]; [simpl; lia..|]. by eexists.
  - intros n m Hm.
    assert (Hfuel : ∀ fuel, (n ≤ fuel)%nat →
              rounds fuel (nickname me) inp rnd (kickoff (energy p)) = Some m).
    { intros fuel Hle. by apply rounds_more_fuel with n. }
    destruct (rounds_tallied _ _ _ _ _ _ _ (tallied_kickoff (energy p)) Hm)
      as [(Hw & Hlo & Hd & Hwin & Hhp & Hmin) Hplay].
    apply playing_false in Hplay.
    split; [done|]. split; [done|].
    split; [intros ?; apply Hwin; lia|]. split; [lia|].
    intros fuel Hle.
    rewrite (Challenge_adoptable _ _ _ _ _ _ _ _ _ _ _ _ _
               Hme Hmp Hcur Hl Hfind Hne Ho Had), (Hfuel fuel Hle).
    rewrite result_after, world_after.
    destruct (aftermath_self self cur opp me o m now
                (upd_pymon self (set_energy (hp m)) w) (set_energy (hp m) p))
      as (Hres & p' & Hp' & He & Hbs).
    { rewrite pymon_at_upd_pymon. unfold pymon_at. by rewrite Hme; simpl; rewrite Hmp. }
    split; [done|]. exists p'. split; [done|]. split; [done|].
    by rewrite Hbs, add_battle_spec.
Qed.

(** ** Operation: sequences of commands *)

(** [move] contains no loop: it ends without any fuel.  The proofs follow
    the shape of the code. *)
Lemma preserves_anything_modify f : preserves anything (modify f).
Proof. by apply preserves_modify. Qed.

Lemma preserves_lift_raise {A} P e : preserves P (lift (A:=A) (Raise e)).
Proof. by apply preserves_pure. Qed.

Lemma preserves_lift_ok {A} P (a : A) : preserves P (lift (Ok a)).
Proof. by apply preserves_pure. Qed.

Ltac straight_with tac :=
  repeat first
    [ tac
    | apply preserves_print | apply preserves_ret | apply preserves_raise
    | apply preserves_get_loc | apply preserves_get_obj
    | apply preserves_get_pymon | apply preserves_anything_modify
    | apply preserves_lift_raise | apply preserves_lift_ok
    | apply preserves_bind; [|intros ?] ].

Ltac straight := straight_with fail.

Lemma creatures_remove_straight loc x : preserves anything (creatures_remove loc x).
Proof. unfold creatures_remove. straight. case_bool_decide; straight. Qed.

Lemma add_creature_straight loc x : preserves anything (add_creature loc x).
Proof. unfold add_creature. straight. Qed.

Lemma random_escape_straight self r : preserves anything (random_escape self r).
Proof.
  unfold random_escape. straight.
  destruct (current_location _);
    straight_with ltac:(first [apply creatures_remove_straight
                              |apply add_creature_straight]).
  - unfold random_choice. destruct (dict_values _); straight.
  - destruct a1;
      straight_with ltac:(first [apply creatures_remove_straight
                                |apply add_creature_straight]).
Qed.

Lemma move_straight self direction r : preserves anything (move self direction r).
Proof.
  unfold move. apply preserves_try.
  - unfold move_try. straight.
    + case_bool_decide; straight.
    + destruct (current_location _); straight.
      destruct (doors _ !! direction) as [[x|]|];
        straight_with ltac:(first [apply creatures_remove_straight
                                  |apply add_creature_straight]).
      * case_bool_decide; [apply creatures_remove_straight|straight].
      * destruct (2 <=? _); straight.
        destruct (_ <=? 0); [apply random_escape_straight|straight].
  - intros e h. destruct e; intros [= <-]; straight.
Qed.

(** The commands answer the [Operation] they were called on: neither a move
    nor a challenge assigns [self.current_pymon]. *)
Lemma move_pymon_run self direction r w :
  world (move_pymon self direction r w)
  = world (move (current_pymon self) direction r w) ∧
  result (move_pymon self direction r w) ≠ OutOfFuel ∧
  ∀ op, result (move_pymon self direction r w) = Ok op → op = self.
Proof.
  destruct (move_straight (current_pymon self) direction r w I) as [_ Hfuel].
  unfold move_pymon, mbind, Py_bind, bind, try_except.
  destruct (result (move (current_pymon self) direction r w)) as [[]|e|] eqn:Hr;
    [| |done].
  - rewrite Hr; simpl. split; [done|]. split; [done|]. by intros op [= <-].
  - destruct e; simpl; rewrite ?Hr; simpl;
      (split; [done|]); (split; [done|]); intros op; by intros [= <-].
Qed.

Lemma challenge_creature_run self fuel creature_name inp rnd now w :
  world (challenge_creature self fuel creature_name inp rnd now w)
  = world (Challenge fuel (current_pymon self) creature_name inp rnd now w) ∧
  ∀ op, result (challenge_creature self fuel creature_name inp rnd now w) = Ok op →
        op = self.
Proof.
  unfold challenge_creature, mbind, Py_bind, bind.
  destruct (result (Challenge fuel (current_pymon self) creature_name inp rnd now w))
    as [[]|e|]; simpl; (split; [done|]); intros op; by intros [= <-].
Qed.

(** One command: the active Pymon stays the same object; its energy does not
    grow; a move takes at most one point, a challenge does not take it below
    0 unless it was there. *)
Lemma command_energy self c w p :
  pymon_at w (current_pymon self) = Some p →
  (∀ op, result (command self c w) = Ok op → op = self) ∧
  ∃ p', pymon_at (world (command self c w)) (current_pymon self) = Some p' ∧
    energy p' ≤ energy p ∧
    Z.min (energy p) 0 - Z.of_nat (count_moves [c]) ≤ energy p'.
Proof.
  intros Hp. destruct c as [direction r|fuel creature_name inp rnd now]; simpl.
  - destruct (move_pymon_run self direction r w) as (Hw & _ & Hop).
    split; [done|]. rewrite Hw.
    destruct (destination w (current_pymon self) direction) as [nl|] eqn:Hd.
    + exists (moved nl p). split; [by apply move_moved|].
      unfold moved; simpl. destruct (2 <=? track_moves p + 1); simpl; lia.
    + rewrite (move_stuck _ _ _ _ Hd). exists p. split; [done|lia].
  - destruct (challenge_creature_run self fuel creature_name inp rnd now w)
      as (Hw & Hop).
    split; [done|]. rewrite Hw.
    destruct (Challenge_energy fuel (current_pymon self) creature_name inp rnd now w p Hp)
      as (p' & Hp' & Hle & Hge).
    exists p'. split; [done|lia].
Qed.

(** C2 (amended): along any sequence of moves and challenges the active
    Pymon stays the same object and its energy never grows, so it stays at
    most 3; a challenge never takes it below 0; a move takes one point on
    every second successful move whatever the energy is.  The energy is
    therefore at least [min e 0] minus the number of moves commanded, where
    [e] is the energy at the start: with challenges only, [0 <= energy <= 3]
    is kept; moves can take the energy below 0. *)
Theorem energy_after_commands cs : ∀ self w p,
  pymon_at w (current_pymon self) = Some p →
  energy p ≤ 3 →
  let r := commands self cs w in
  (∀ op, result r = Ok op → op = self) ∧
  ∃ p', pymon_at (world r) (current_pymon self) = Some p' ∧
    energy p' ≤ 3 ∧ energy p' ≤ energy p ∧
    Z.min (energy p) 0 - Z.of_nat (count_moves cs) ≤ energy p'.
Proof.
  induction cs as [|c cs IH]; intros self w p Hp H3; cbv zeta.
  - simpl. split; [by intros op [= <-]|]. exists p. split; [done|lia].
  - destruct (command_energy self c w p Hp) as (Hop & p1 & Hp1 & Hle & Hge).
    assert (Hcount : Z.of_nat (count_moves (c :: cs))
                     = Z.of_nat (count_moves [c]) + Z.of_nat (count_moves cs)).
    { destruct c; simpl; lia. }
    rewrite Hcount. clear Hcount. cbn [commands]. unfold mbind, Py_bind, bind.
    destruct (result (command self c w)) as [op| |] eqn:Hres; cbn [result world].
    + rewrite (Hop op eq_refl).
      destruct (IH self (world (command self c w)) p1 Hp1 ltac:(lia))
        as (Hop' & p' & Hp' & H3' & Hle' & Hge').
      split; [done|]. exists p'. split; [done|]. lia.
    + split; [done|]. exists p1. split; [done|]. lia.
    + split; [done|]. exists p1. split; [done|]. lia.
Qed.

(** ** The pet bench *)

(** *** Operation.select_benched_pymon *)

(** [list.pop] on a position of the list, counted from the front. *)
Lemma list_pop_front {A} (i : Z) (l : list A) x :
  0 ≤ i → l !! Z.to_nat i = Some x →
  list_pop i l = Ok (x, delete (Z.to_nat i) l).
Proof.
  intros Hi Hx. pose proof (lookup_lt_Some _ _ _ Hx) as Hlt.
  unfold list_pop. destruct l as [|y l']; [done|].
  set (l := y :: l') in *. clearbody l.
  rewrite (proj2 (Z.ltb_ge i 0)) by lia.
  rewrite (proj2 (Z.ltb_ge i 0)) by lia.
  rewrite (proj2 (Z.leb_gt (Z.of_nat (length l)) i)) by lia.
  simpl. by rewrite Hx.
Qed.

(** [list.pop] on a negative index counts from the back. *)
Lemma list_pop_back {A} (i : Z) (l : list A) x :
  i < 0 → 0 ≤ i + Z.of_nat (length l) →
  l !! Z.to_nat (i + Z.of_nat (length l)) = Some x →
  list_pop i l = Ok (x, delete (Z.to_nat (i + Z.of_nat (length l))) l).
Proof.
  intros Hi Hk Hx. pose proof (lookup_lt_Some _ _ _ Hx) as Hlt.
  unfold list_pop. destruct l as [|y l']; [done|].
  set (l := y :: l') in *. clearbody l.
  rewrite (proj2 (Z.ltb_lt i 0)) by lia.
  rewrite (proj2 (Z.ltb_ge (i + Z.of_nat (length l)) 0)) by lia.
  rewrite (proj2 (Z.leb_gt (Z.of_nat (length l)) (i + Z.of_nat (length l)))) by lia.
  simpl. by rewrite Hx.
Qed.

(** [list.pop] past either end raises [IndexError]. *)
Lemma list_pop_outside {A} (i : Z) (l : list A) :
  Z.of_nat (length l) ≤ i ∨ i < - Z.of_nat (length l) →
  ∃ msg, list_pop i l = Raise (IndexError msg).
Proof.
  intros Hi. unfold list_pop. destruct l as [|y l']; [by eexists|].
  set (l := y :: l') in *. clearbody l.
  destruct (i <? 0) eqn:Hneg.
  - apply Z.ltb_lt in Hneg.
    destruct (i + Z.of_nat (length l) <? 0) eqn:Hk; [by eexists|].
    apply Z.ltb_ge in Hk. lia.
  - apply Z.ltb_ge in Hneg. rewrite (proj2 (Z.ltb_ge i 0)) by lia.
    rewrite (proj2 (Z.leb_le (Z.of_nat (length l)) i)) by lia. by eexists.
Qed.

Lemma list_bench_run bench : ∀ index w,
  Forall (λ x, is_Some (objs w !! x)) bench →
  ∃ out, list_bench index bench w = mkRun (Ok tt) w out.
Proof.
  induction bench as [|x bench IH]; intros index w Hall; simpl; [by eexists|].
  apply Forall_cons in Hall as [[c Hc] Hall].
  rewrite (bind_get_obj _ _ _ _ Hc), bind_print.
  destruct (IH (index + 1) w Hall) as [out ->]. by eexists.
Qed.

(** A selection that [pop] accepts: the chosen pet leaves the bench of the
    active Pymon, the active Pymon is appended to that same bench, and the
    chosen pet becomes the active Pymon. *)
Lemma select_switches self user w p sel rest s :
  pymon_at w (current_pymon self) = Some p →
  Forall (λ x, is_Some (objs w !! x)) (pets p) →
  user ≠ 0 →
  list_pop (user - 1) (pets p) = Ok (sel, rest) →
  objs w !! sel = Some s →
  ∃ out,
    select_benched_pymon self (Some user) w
    = mkRun (Ok {| locations := locations self; current_pymon := sel |})
        (upd_pymon (current_pymon self)
           (λ p, set_pets (pets p ++ [current_pymon self]) p)
           (upd_pymon (current_pymon self) (set_pets rest) w))
        (out ++ ["Your Primary Pymon is now: " +:+ nickname s]).
Proof.
  intros Hp Hall Hu Hpop Hs. unfold select_benched_pymon.
  rewrite (bind_get_pymon _ _ _ _ Hp).
  destruct (pets p) as [|x bench] eqn:Hpets; [done|]. rewrite <- Hpets in *.
  rewrite bind_print.
  destruct (list_bench_run (pets p) 1 w Hall) as [out Hout].
  rewrite (bind_run _ _ _ _ _ _ Hout).
  exists ((newline +:+ "Available Pymons:") :: out).
  assert (Hbody :
    (if user =? 0 then ret self
     else
       '(selected_pymon, rest0) ← lift (list_pop (user - 1) (pets p));
       modify (upd_pymon (current_pymon self) (set_pets rest0));;
       modify (upd_pymon (current_pymon self)
                 (λ p0, set_pets (pets p0 ++ [current_pymon self]) p0));;
       s0 ← get_obj selected_pymon;
       print ("Your Primary Pymon is now: " +:+ nickname s0);;
       ret {| locations := locations self; current_pymon := selected_pymon |}) w
    = mkRun (Ok {| locations := locations self; current_pymon := sel |})
        (upd_pymon (current_pymon self)
           (λ p, set_pets (pets p ++ [current_pymon self]) p)
           (upd_pymon (current_pymon self) (set_pets rest) w))
        ["Your Primary Pymon is now: " +:+ nickname s]).
  { rewrite (proj2 (Z.eqb_neq user 0) Hu), Hpop, bind_lift_ok. cbn beta iota.
    rewrite !bind_modify.
    assert (∃ s', objs (upd_pymon (current_pymon self)
                          (λ p0, set_pets (pets p0 ++ [current_pymon self]) p0)
                          (upd_pymon (current_pymon self) (set_pets rest) w)) !! sel
                  = Some s' ∧ nickname s' = nickname s) as (s' & Hs' & Hnick).
    { unfold upd_pymon; simpl.
      destruct (decide (current_pymon self = sel)) as [->|Hne].
      - rewrite !lookup_alter_eq, Hs. by eexists.
      - rewrite !lookup_alter_ne, Hs by done. by eexists. }
    rewrite (bind_get_obj _ _ _ _ Hs'), bind_print, Hnick. reflexivity. }
  unfold try_except. rewrite Hbody. unfold after; simpl. reflexivity.
Qed.

(** An entry that is not an integer, or a position [pop] refuses: the error
    is reported and nothing has changed. *)
Lemma select_rejects self user w p :
  pymon_at w (current_pymon self) = Some p →
  Forall (λ x, is_Some (objs w !! x)) (pets p) →
  pets p ≠ [] →
  match user with
  | None => True
  | Some u => u ≠ 0 ∧ ∃ msg, list_pop (u - 1) (pets p) = Raise (IndexError msg)
  end →
  ∃ out,
    select_benched_pymon self user w
    = mkRun (Ok self) w (out ++ ["Error: Invalid selection."]).
Proof.
  intros Hp Hall Hne Hu. unfold select_benched_pymon.
  rewrite (bind_get_pymon _ _ _ _ Hp).
  destruct (pets p) as [|x bench] eqn:Hpets; [done|]. rewrite <- Hpets in *.
  rewrite bind_print.
  destruct (list_bench_run (pets p) 1 w Hall) as [out Hout].
  rewrite (bind_run _ _ _ _ _ _ Hout).
  exists ((newline +:+ "Available Pymons:") :: out).
  unfold try_except. destruct user as [u|].
  - destruct Hu as (Hu & msg & Hpop).
    rewrite (proj2 (Z.eqb_neq u 0) Hu), Hpop. reflexivity.
  - reflexivity.
Qed.

(** The answer 0 cancels: nothing changes and nothing is printed after the
    list of the bench. *)
Lemma select_cancels self w p :
  pymon_at w (current_pymon self) = Some p →
  Forall (λ x, is_Some (objs w !! x)) (pets p) →
  pets p ≠ [] →
  ∃ out,
    list_bench 1 (pets p) w = mkRun (Ok tt) w out ∧
    select_benched_pymon self (Some 0) w
    = mkRun (Ok self) w ((newline +:+ "Available Pymons:") :: out).
Proof.
  intros Hp Hall Hne. unfold select_benched_pymon.
  rewrite (bind_get_pymon _ _ _ _ Hp).
  destruct (pets p) as [|x bench] eqn:Hpets; [done|]. rewrite <- Hpets in *.
  rewrite bind_print.
  destruct (list_bench_run (pets p) 1 w Hall) as [out Hout].
  rewrite (bind_run _ _ _ _ _ _ Hout).
  exists out. split; [done|]. unfold try_except, after; simpl.
  by rewrite app_nil_r.
Qed.

(** A negative answer within the length of the bench is taken for a
    position counted from the back, and switches the active Pymon. *)
Lemma select_negative_switches self user w p sel s :
  pymon_at w (current_pymon self) = Some p →
  Forall (λ x, is_Some (objs w !! x)) (pets p) →
  user < 0 →
  0 ≤ user - 1 + Z.of_nat (length (pets p)) →
  pets p !! Z.to_nat (user - 1 + Z.of_nat (length (pets p))) = Some sel →
  objs w !! sel = Some s →
  ∃ out,
    select_benched_pymon self (Some user) w
    = mkRun (Ok {| locations := locations self; current_pymon := sel |})
        (upd_pymon (current_pymon self)
           (λ p, set_pets (pets p ++ [current_pymon self]) p)
           (upd_pymon (current_pymon self)
              (set_pets (delete (Z.to_nat (user - 1 + Z.of_nat (length (pets p))))
                           (pets p))) w))
        (out ++ ["Your Primary Pymon is now: " +:+ nickname s]).
Proof.
  intros Hp Hall Hneg Hk Hsel Hs.
  apply (select_switches self user w p sel _ s Hp Hall); [lia| |done].
  apply list_pop_back; [lia|done|done].
Qed.

(** * Further properties *)

(** ** Location.connect, cardinal directions *)

Lemma opposite_cardinal direction :
  direction ∈ cardinal →
  ∃ opposite, opposite_directions !! direction = Some opposite ∧
    opposite_directions !! opposite = Some direction ∧
    opposite ∈ cardinal ∧ opposite ≠ direction.
Proof.
  unfold cardinal. rewrite !elem_of_cons, elem_of_nil.
  intros [->|[->|[->|[->|[]]]]];
    [exists "east"|exists "south"|exists "west"|exists "north"];
    (split; [reflexivity|]); (split; [reflexivity|]);
    (split; [|done]); rewrite !elem_of_cons; tauto.
Qed.

Lemma locs_upd_loc l k f w :
  locs (upd_loc l f w) !! k = (if decide (l = k) then f else id) <$> locs w !! k.
Proof.
  unfold upd_loc; simpl. case_decide as H.
  - subst. by rewrite lookup_alter_eq.
  - rewrite lookup_alter_ne by done. by destruct (locs w !! k).
Qed.

(** Connecting through a cardinal direction opens the door both ways: the
    slot of [self] holds the other room, the opposite slot of the other room
    holds [self], also when the two rooms are the same object.  No other slot
    of any room, no list of creatures or items and no creature changes. *)
Theorem connect_cardinal self direction another_room w a b :
  direction ∈ cardinal →
  locs w !! self = Some a →
  locs w !! another_room = Some b →
  let r := connect self direction another_room w in
  ∃ opposite,
    opposite_directions !! direction = Some opposite ∧
    result r = Ok tt ∧
    doors_of (world r) self ≫= (.!! direction) = Some (Some another_room) ∧
    doors_of (world r) another_room ≫= (.!! opposite) = Some (Some self) ∧
    (∀ k d, ¬ (k = self ∧ d = direction) → ¬ (k = another_room ∧ d = opposite) →
       doors_of (world r) k ≫= (.!! d) = doors_of w k ≫= (.!! d)) ∧
    (∀ k, creatures <$> locs (world r) !! k = creatures <$> locs w !! k) ∧
    (∀ k, items <$> locs (world r) !! k = items <$> locs w !! k) ∧
    objs (world r) = objs w.
Proof.
  intros Hd Ha Hb r.
  destruct (opposite_cardinal _ Hd) as (opp & Hopp & _ & _ & Hne).
  exists opp. split; [done|].
  assert (Hr : r = mkRun (Ok tt)
      (upd_loc another_room (set_doors <[opp := Some self]>)
         (upd_loc self (set_doors <[direction := Some another_room]>) w)) []).
  { unfold r, connect. by rewrite bind_modify, Hopp. }
  rewrite Hr. cbn [result world]. split; [done|].
  unfold doors_of. split; [|split; [|split; [|split; [|split; [|done]]]]].
  - rewrite !locs_upd_loc, Ha.
    repeat case_decide; try done; simpl;
      rewrite ?(lookup_insert_ne _ opp direction) by done;
      by rewrite lookup_insert_eq.
  - rewrite !locs_upd_loc, Hb.
    repeat case_decide; try done; simpl; by rewrite lookup_insert_eq.
  - intros k d H1 H2. rewrite !locs_upd_loc.
    destruct (locs w !! k) as [x|]; [|done].
    repeat case_decide; subst; simpl;
      rewrite ?lookup_insert_ne; try done; intros <-; tauto.
  - intros k. rewrite !locs_upd_loc.
    destruct (locs w !! k) as [x|]; [|done]. by repeat case_decide.
  - intros k. rewrite !locs_upd_loc.
    destruct (locs w !! k) as [x|]; [|done]. by repeat case_decide.
Qed.

Lemma connect_cardinal_witness :
  doors_of forest_cave 0%nat ≫= (.!! "east") = Some (Some 1%nat) ∧
  doors_of forest_cave 1%nat ≫= (.!! "west") = Some (Some 0%nat).
Proof.
  assert (Hd : "east" ∈ cardinal) by (unfold cardinal; rewrite !elem_of_cons; tauto).
  destruct (connect_cardinal 0%nat "east" 1%nat two_rooms _ _ Hd eq_refl eq_refl)
    as (opp & Hopp & _ & H1 & H2 & _).
  injection Hopp as <-. split; [exact H1|exact H2].
Defined.

Lemma set_doors_insert_id l d v :
  doors l !! d = Some v → set_doors <[d := v]> l = l.
Proof.
  intros H. destruct l as [n ds dr cs it]; unfold set_doors; simpl in *.
  by rewrite insert_id.
Qed.

(** Connecting back from the other side adds nothing: after
    [connect(a, d, b)], the call [connect(b, opposite(d), a)] leaves every
    room as it is. *)
Theorem connect_back_changes_nothing self direction another_room w a b opposite :
  direction ∈ cardinal →
  opposite_directions !! direction = Some opposite →
  locs w !! self = Some a →
  locs w !! another_room = Some b →
  let w1 := world (connect self direction another_room w) in
  connect another_room opposite self w1 = mkRun (Ok tt) w1 [].
Proof.
  intros Hd Hopp Ha Hb w1.
  destruct (opposite_cardinal _ Hd) as (opp & Hopp' & Hback & _ & Hne).
  assert (opp = opposite) as -> by congruence.
  assert (Hw1 : w1 = upd_loc another_room (set_doors <[opposite := Some self]>)
            (upd_loc self (set_doors <[direction := Some another_room]>) w)).
  { unfold w1, connect. by rewrite bind_modify, Hopp. }
  assert (H1 : doors_of w1 self ≫= (.!! direction) = Some (Some another_room)).
  { rewrite Hw1. unfold doors_of. rewrite !locs_upd_loc, Ha.
    repeat case_decide; try done; simpl;
      rewrite ?(lookup_insert_ne _ opposite direction) by done;
      by rewrite lookup_insert_eq. }
  assert (H2 : doors_of w1 another_room ≫= (.!! opposite) = Some (Some self)).
  { rewrite Hw1. unfold doors_of. rewrite !locs_upd_loc, Hb.
    repeat case_decide; try done; simpl; by rewrite lookup_insert_eq. }
  clear Hw1.
  unfold connect. rewrite bind_modify, Hback.
  unfold modify. f_equal.
  destruct w1 as [ls os] eqn:Hw1. unfold upd_loc, doors_of in *; simpl in *.
  f_equal. apply map_eq; intros k.
  destruct (ls !! self) as [x|] eqn:Hx; [|done].
  destruct (ls !! another_room) as [y|] eqn:Hy; [|done].
  simpl in H1, H2.
  destruct (decide (self = k)) as [<-|Hk1].
  - rewrite lookup_alter_eq.
    destruct (decide (another_room = self)) as [->|Hk2].
    + rewrite lookup_alter_eq, Hx; simpl. f_equal.
      rewrite (set_doors_insert_id x opposite (Some self)) by congruence.
      by apply set_doors_insert_id.
    + rewrite lookup_alter_ne, Hx by done. simpl. f_equal.
      by apply set_doors_insert_id.
  - rewrite lookup_alter_ne by done.
    destruct (decide (another_room = k)) as [<-|Hk2].
    + rewrite lookup_alter_eq, Hy; simpl. f_equal. by apply set_doors_insert_id.
    + by rewrite lookup_alter_ne.
Qed.

Lemma connect_back_changes_nothing_witness :
  connect 1%nat "west" 0%nat forest_cave = mkRun (Ok tt) forest_cave [].
Proof.
  assert (Hd : "east" ∈ cardinal) by (unfold cardinal; rewrite !elem_of_cons; tauto).
  exact (connect_back_changes_nothing 0%nat "east" 1%nat two_rooms _ _ "west"
           Hd eq_refl eq_refl eq_refl).
Defined.

(** ** Pymon.move: the lists of the rooms *)

Lemma remove_first_absent x l : x ∉ l → remove_first x l = l.
Proof.
  induction l as [|y l IH]; [done|]. rewrite not_elem_of_cons. intros [Hne Hl].
  simpl. rewrite decide_False by done. by rewrite IH.
Qed.

Lemma remove_first_NoDup x l : NoDup l → x ∉ remove_first x l.
Proof.
  induction 1 as [|y l Hy Hnd IH]; simpl; [apply not_elem_of_nil|].
  case_decide as H; [by subst|].
  rewrite not_elem_of_cons. split; [congruence|done].
Qed.

Lemma locs_after_move self direction r w nl p cur l :
  destination w self direction = Some nl →
  pymon_at w self = Some p → current_location p = Some cur →
  locs w !! cur = Some l →
  locs (world (move self direction r w))
  = alter (set_creatures (λ cs, cs ++ [self])) nl
      (alter (set_creatures (remove_first self)) cur (locs w)).
Proof.
  intros Hdest Hp' Hcur' Hl'. rewrite move_world.
  destruct (destination_Some _ _ _ _ Hdest)
    as (Hd & p0 & cur0 & l0 & there & Hp & Hcur & Hl & Hdoor & Hthere).
  assert (p0 = p) as -> by congruence.
  assert (cur0 = cur) as -> by congruence.
  assert (l0 = l) as -> by congruence. clear Hp' Hcur' Hl'.
  unfold move_try. rewrite (bool_decide_eq_true_2 _ Hd), bind_ret.
  rewrite (bind_get_pymon _ _ _ _ Hp), Hcur, (bind_get_loc _ _ _ _ Hl), Hdoor.
  rewrite (bind_get_loc _ _ _ _ Hthere).
  set (w1 := upd_loc cur (set_creatures (remove_first self)) w).
  assert (Hstep1 : ∃ w1', (if bool_decide (self ∈ creatures l)
                     then creatures_remove cur self else ret ()) w
                   = mkRun (Ok tt) w1' [] ∧ locs w1' = locs w1 ∧ objs w1' = objs w).
  { case_bool_decide as Hin.
    - exists w1. by rewrite (creatures_remove_run _ _ _ _ Hl Hin).
    - exists w. split; [done|]. split; [|done]. unfold w1, upd_loc; simpl.
      apply map_eq; intros k. destruct (decide (cur = k)) as [<-|Hk].
      + rewrite lookup_alter_eq, Hl. simpl. f_equal.
        destruct l as [n ds dr cs it]; unfold set_creatures; simpl in *.
        by rewrite remove_first_absent.
      + by rewrite lookup_alter_ne. }
  destruct Hstep1 as (w1' & Hstep1 & Hl1 & Ho1).
  rewrite (bind_run _ _ _ _ _ _ Hstep1), after_nil.
  unfold add_creature. rewrite !bind_modify, bind_print, bind_modify.
  set (w2 := upd_pymon self _ (upd_pymon self _ (upd_loc nl _ w1'))).
  assert (Hlocs2 : locs w2 = alter (set_creatures (λ cs, cs ++ [self])) nl
            (alter (set_creatures (remove_first self)) cur (locs w))).
  { unfold w2, upd_pymon, upd_loc; cbn [locs]. by rewrite Hl1. }
  assert (Hp2 : pymon_at w2 self
     = Some (set_track_moves (track_moves p + 1) (set_current_location (Some nl) p))).
  { unfold w2. rewrite !pymon_at_upd_pymon, pymon_at_upd_loc.
    unfold pymon_at. rewrite Ho1. fold (pymon_at w self). by rewrite Hp. }
  rewrite (bind_get_pymon _ _ _ _ Hp2), world_after.
  cbn [track_moves set_track_moves].
  destruct (2 <=? track_moves p + 1); [|done].
  rewrite !bind_modify.
  set (w3 := upd_pymon self _ (upd_pymon self _ w2)).
  assert (Hp3 : ∃ p3, pymon_at w3 self = Some p3 ∧ energy p3 = energy p - 1).
  { unfold w3. rewrite !pymon_at_upd_pymon, Hp2. by eexists. }
  destruct Hp3 as (p3 & Hp3 & He3).
  rewrite (bind_get_pymon _ _ _ _ Hp3), bind_print, world_after.
  destruct (energy p3 <=? 0); [|done].
  destruct (random_escape_raises self r w3) as (e & -> & _). done.
Qed.

(** A successful move from one room to another: the Pymon is appended to
    the creatures of the room it enters and its first entry in the list of
    the room it leaves is removed; when it was listed there at most once, it
    is listed there no more.  The other rooms keep their lists, and every
    room its doors and items. *)
Theorem move_changes_rooms self direction r w nl p cur l there :
  destination w self direction = Some nl →
  pymon_at w self = Some p →
  current_location p = Some cur →
  locs w !! cur = Some l →
  locs w !! nl = Some there →
  cur ≠ nl →
  let w' := world (move self direction r w) in
  creatures <$> locs w' !! nl = Some (creatures there ++ [self]) ∧
  creatures <$> locs w' !! cur = Some (remove_first self (creatures l)) ∧
  (NoDup (creatures l) → ∀ cs, creatures <$> locs w' !! cur = Some cs → self ∉ cs) ∧
  (∀ k, k ≠ cur → k ≠ nl → locs w' !! k = locs w !! k) ∧
  (∀ k, doors <$> locs w' !! k = doors <$> locs w !! k) ∧
  (∀ k, items <$> locs w' !! k = items <$> locs w !! k).
Proof.
  intros Hdest Hp Hcur Hl Hthere Hne w'. unfold w'.
  rewrite (locs_after_move _ _ r _ _ _ _ _ Hdest Hp Hcur Hl).
  assert (H1 : creatures <$> alter (set_creatures (λ cs, cs ++ [self])) nl
            (alter (set_creatures (remove_first self)) cur (locs w)) !! cur
          = Some (remove_first self (creatures l))).
  { rewrite lookup_alter_ne, lookup_alter_eq, Hl by done. done. }
  split; [|split; [done|split; [|split; [|split]]]].
  - rewrite lookup_alter_eq, lookup_alter_ne, Hthere by done. done.
  - intros Hnd cs. rewrite H1. intros [= <-]. by apply remove_first_NoDup.
  - intros k H1' H2'. by rewrite !lookup_alter_ne.
  - intros k. rewrite !lookup_alter.
    repeat case_decide; subst; try done; by destruct (locs w !! k).
  - intros k. rewrite !lookup_alter.
    repeat case_decide; subst; try done; by destruct (locs w !! k).
Qed.

Lemma move_changes_rooms_witness :
  creatures <$> locs (world (move 0%nat "east" O forest_cave)) !! 1%nat
    = Some [3; 0]%nat ∧
  creatures <$> locs (world (move 0%nat "east" O forest_cave)) !! 0%nat
    = Some [1; 2]%nat.
Proof.
  assert (Hd : destination forest_cave 0%nat "east" = Some 1%nat)
    by (vm_compute; reflexivity).
  assert (Hl0 : ∃ l, locs forest_cave !! 0%nat = Some l ∧ creatures l = [0; 1; 2]%nat)
    by (eexists; split; reflexivity).
  assert (Hl1 : ∃ l, locs forest_cave !! 1%nat = Some l ∧ creatures l = [3%nat])
    by (eexists; split; reflexivity).
  destruct Hl0 as (l0 & Hl0 & Hc0). destruct Hl1 as (l1 & Hl1 & Hc1).
  destruct (move_changes_rooms 0%nat "east" O forest_cave 1%nat _ 0%nat l0 l1
              Hd eq_refl eq_refl Hl0 Hl1 ltac:(lia)) as (H1 & H2 & _).
  rewrite Hc1 in H1. rewrite Hc0 in H2. split; [exact H1|exact H2].
Defined.

(** ** Pymon.move: running out of energy *)

Lemma random_escape_error self r w p cur l :
  pymon_at w self = Some p → current_location p = Some cur →
  locs w !! cur = Some l →
  ∃ e, random_escape self r w = mkRun (Raise e) w [] ∧ is_Exception e = true.
Proof.
  intros Hp Hcur Hl. unfold random_escape.
  rewrite (bind_get_pymon _ _ _ _ Hp), Hcur, (bind_get_loc _ _ _ _ Hl).
  destruct (dict_values (doors l));
    (eexists; split; [apply bind_raised; unfold lift, random_choice; reflexivity|done]).
Qed.

(** The successful move that brings the energy to 0 or below: the Pymon
    has arrived, with its counter reset and one point of energy less, when
    the escape raises an error; [move] lets it through, [move_pymon] reports
    it and returns, so that the session goes on. *)
Theorem move_out_of_energy self direction r w nl p :
  destination w (current_pymon self) direction = Some nl →
  pymon_at w (current_pymon self) = Some p →
  1 ≤ track_moves p →
  energy p ≤ 1 →
  ∃ e p',
    result (move (current_pymon self) direction r w) = Raise e ∧
    is_Exception e = true ∧
    result (move_pymon self direction r w) = Ok self ∧
    world (move_pymon self direction r w)
      = world (move (current_pymon self) direction r w) ∧
    pymon_at (world (move_pymon self direction r w)) (current_pymon self) = Some p' ∧
    current_location p' = Some nl ∧ energy p' = energy p - 1 ∧ track_moves p' = 0.
Proof.
  intros Hdest Hp' Htm He. set (me := current_pymon self) in *.
  destruct (destination_Some _ _ _ _ Hdest)
    as (Hd & p0 & cur & l & there & Hp & Hcur & Hl & Hdoor & Hthere).
  assert (p0 = p) as -> by congruence. clear Hp'.
  assert (Htry : ∃ e w', move_try me direction r w
             = mkRun (Raise e) w' ["You moved to:  " +:+ name there;
                 "Your pymon energy decreased by 1. Current Energy: "
                 +:+ pretty (energy p - 1)] ∧ is_Exception e = true ∧
             (∀ d, e ≠ InvalidDirectionException d) ∧
             pymon_at w' me = Some (moved nl p)).
  { unfold move_try. rewrite (bool_decide_eq_true_2 _ Hd), bind_ret.
    rewrite (bind_get_pymon _ _ _ _ Hp), Hcur, (bind_get_loc _ _ _ _ Hl), Hdoor.
    rewrite (bind_get_loc _ _ _ _ Hthere).
    assert (Hstep1 : ∃ w1, (if bool_decide (me ∈ creatures l)
                     then creatures_remove cur me else ret ()) w
                   = mkRun (Ok tt) w1 [] ∧ objs w1 = objs w ∧
                   is_Some (locs w1 !! nl)).
    { case_bool_decide as Hin.
      - eexists. rewrite (creatures_remove_run _ _ _ _ Hl Hin).
        split; [done|]. split; [done|]. rewrite locs_upd_loc, Hthere. by eexists.
      - exists w. split; [done|]. split; [done|]. by eexists. }
    destruct Hstep1 as (w1 & Hstep1 & Ho1 & [t1 Ht1]).
    rewrite (bind_run _ _ _ _ _ _ Hstep1), after_nil.
    unfold add_creature. rewrite !bind_modify, bind_print, bind_modify.
    set (w2 := upd_pymon me _ (upd_pymon me _ (upd_loc nl _ w1))).
    assert (Hp2 : pymon_at w2 me
       = Some (set_track_moves (track_moves p + 1) (set_current_location (Some nl) p))).
    { unfold w2. rewrite !pymon_at_upd_pymon, pymon_at_upd_loc.
      unfold pymon_at. rewrite Ho1. fold (pymon_at w me). by rewrite Hp. }
    rewrite (bind_get_pymon _ _ _ _ Hp2).
    cbn [track_moves set_track_moves].
    rewrite (proj2 (Z.leb_le 2 (track_moves p + 1))) by lia.
    rewrite !bind_modify.
    set (w3 := upd_pymon me _ (upd_pymon me _ w2)).
    assert (Hp3 : pymon_at w3 me = Some (moved nl p)).
    { unfold w3, moved. rewrite !pymon_at_upd_pymon, Hp2.
      cbn [track_moves set_track_moves].
      by rewrite (proj2 (Z.leb_le 2 (track_moves p + 1))) by lia. }
    assert (Hm : energy (moved nl p) = energy p - 1 ∧
                 current_location (moved nl p) = Some nl).
    { unfold moved. cbn [track_moves set_track_moves].
      by rewrite (proj2 (Z.leb_le 2 (track_moves p + 1))) by lia. }
    destruct Hm as [Hme Hml].
    rewrite (bind_get_pymon _ _ _ _ Hp3), bind_print, Hme.
    rewrite (proj2 (Z.leb_le (energy p - 1) 0)) by lia.
    assert (Hl3 : is_Some (locs w3 !! nl)).
    { unfold w3, w2, upd_pymon; cbn [locs]. rewrite locs_upd_loc, Ht1. by eexists. }
    destruct Hl3 as [t3 Ht3].
    destruct (random_escape_raises me r w3) as (e0 & Hesc0 & Hne).
    destruct (random_escape_error me r w3 _ _ _ Hp3 Hml Ht3) as (e & Hesc & Hex).
    exists e, w3. rewrite Hesc. split; [reflexivity|]. split; [done|].
    split; [|done]. rewrite Hesc in Hesc0. injection Hesc0 as <-. done. }
  destruct Htry as (e & w' & Htry & Hex & Hne & Hp3).
  assert (Hmove : move me direction r w = move_try me direction r w).
  { unfold move, try_except. rewrite Htry; simpl.
    destruct e; try done. by destruct (Hne direction0). }
  exists e, (moved nl p). rewrite Hmove, Htry; simpl.
  split; [done|]. split; [done|].
  assert (Hrun : move_pymon self direction r w
     = mkRun (Ok self) w'
         (["You moved to:  " +:+ name there;
           "Your pymon energy decreased by 1. Current Energy: "
           +:+ pretty (energy p - 1)]
          ++ ["Unexpected error during movement: " +:+ message e])).
  { unfold move_pymon, mbind, Py_bind, bind, try_except. fold me.
    rewrite Hmove, Htry; simpl.
    destruct e; try done; simpl; try (by destruct (Hne direction0)). }
  rewrite Hrun; simpl. split; [done|]. split; [done|]. split; [done|].
  unfold moved. cbn [track_moves set_track_moves].
  rewrite (proj2 (Z.leb_le 2 (track_moves p + 1))) by lia. done.
Qed.

Lemma move_out_of_energy_witness :
  result (move_pymon kimimon "west" O
            (after_moves 0%nat back_and_forth forest_cave)) = Ok kimimon.
Proof.
  assert (Hd : destination (after_moves 0%nat back_and_forth forest_cave)
                 (current_pymon kimimon) "west" = Some 0%nat)
    by (vm_compute; reflexivity).
  assert (Hp : pymon_at (after_moves 0%nat back_and_forth forest_cave)
                 (current_pymon kimimon)
               = Some {| current_location := Some 1%nat; energy := 1;
                         _inventory := []; pets := []; track_moves := 1;
                         immunity := false; battle_stats := {| battles := ∅ |} |})
    by (vm_compute; reflexivity).
  destruct (move_out_of_energy kimimon "west" O _ _ _ Hd Hp
              ltac:(simpl; lia) ltac:(simpl; lia)) as (e & p' & _ & _ & H & _).
  exact H.
Defined.

(** ** BattleStats.add_battle *)

(** Battles recorded one after the other under a nickname pile up in the
    order of the calls behind the records already there; the histories kept
    under other nicknames are not touched. *)
Theorem add_battle_history pymon_name bs : ∀ self,
  battles (add_battles self pymon_name bs) !! pymon_name
  = (if bs is [] then battles self !! pymon_name
     else Some (default [] (battles self !! pymon_name) ++ bs)) ∧
  ∀ other, other ≠ pymon_name →
    battles (add_battles self pymon_name bs) !! other = battles self !! other.
Proof.
  induction bs as [|b bs IH]; intros self; [done|].
  unfold add_battles; cbn [foldl]. fold (add_battles
    (add_battle self pymon_name (opponent b) (wins b) (draws b) (losses b)
       (timestamp b)) pymon_name bs).
  destruct (IH (add_battle self pymon_name (opponent b) (wins b) (draws b)
                  (losses b) (timestamp b))) as [Hown Hother].
  assert (Hb : {| timestamp := timestamp b; opponent := opponent b;
                  wins := wins b; draws := draws b; losses := losses b |} = b)
    by (by destruct b).
  split.
  - rewrite Hown, add_battle_spec, lookup_insert_eq, Hb. simpl.
    destruct bs; [done|]. by rewrite <- app_assoc.
  - intros other Hne. rewrite (Hother other Hne), add_battle_spec.
    by rewrite lookup_insert_ne.
Qed.

(** ** Pymon.Challenge: who can be challenged *)

Lemma find_opponent_none creature_name cs w :
  Forall (λ c, ∃ o, objs w !! c = Some o ∧ nickname o ≠ creature_name) cs →
  find_opponent creature_name cs w = mkRun (Ok None) w [].
Proof.
  induction 1 as [|c cs (o & Ho & Hn) _ IH]; simpl; [done|].
  rewrite (bind_get_obj _ _ _ _ Ho). by rewrite bool_decide_eq_false_2.
Qed.

(** Challenging a name that no creature of the room bears only prints that
    the creature is not available: the store does not change. *)
Theorem Challenge_nobody fuel self creature_name inp rnd now w p cur l :
  pymon_at w self = Some p →
  current_location p = Some cur →
  locs w !! cur = Some l →
  Forall (λ c, ∃ o, objs w !! c = Some o ∧ nickname o ≠ creature_name)
    (creatures l) →
  Challenge fuel self creature_name inp rnd now w
  = mkRun (Ok tt) w [creature_name +:+ " is not available here."].
Proof.
  intros Hp Hcur Hl Hall. unfold Challenge.
  rewrite (bind_get_pymon _ _ _ _ Hp), Hcur, (bind_get_loc _ _ _ _ Hl).
  by rewrite (bind_run _ _ _ _ _ _ (find_opponent_none _ _ _ Hall)).
Qed.

(** A Pymon that challenges its own name, being the first creature of the
    room to bear it, is turned down and nothing changes. *)
Theorem Challenge_itself fuel self creature_name inp rnd now w p cur l :
  pymon_at w self = Some p →
  current_location p = Some cur →
  locs w !! cur = Some l →
  find_opponent creature_name (creatures l) w = mkRun (Ok (Some self)) w [] →
  Challenge fuel self creature_name inp rnd now w
  = mkRun (Ok tt) w ["You cannot challenge your own Pymon."].
Proof.
  intros Hp Hcur Hl Hfind. unfold Challenge.
  rewrite (bind_get_pymon _ _ _ _ Hp), Hcur, (bind_get_loc _ _ _ _ Hl).
  rewrite (bind_run _ _ _ _ _ _ Hfind).
  by rewrite bool_decide_eq_true_2.
Qed.

(** ** Rock, paper, scissors *)

(** Between two valid choices exactly one thing holds: they are equal, the
    first beats the second, or the second beats the first. *)
Theorem beats_trichotomy a b :
  a ∈ rps → b ∈ rps →
  (a = b ∧ beats a b = false ∧ beats b a = false) ∨
  (a ≠ b ∧ beats a b = true ∧ beats b a = false) ∨
  (a ≠ b ∧ beats a b = false ∧ beats b a = true).
Proof.
  unfold rps. rewrite !elem_of_cons, !elem_of_nil.
  intros [->|[->|[->|[]]]] [->|[->|[->|[]]]]; vm_compute;
    first [left; by repeat split
          |right; left; by repeat split
          |right; right; by repeat split].
Qed.

Lemma beats_trichotomy_witness :
  "rock" ≠ "scissors" ∧ beats "rock" "scissors" = true
  ∧ beats "scissors" "rock" = false.
Proof.
  assert (H1 : "rock" ∈ rps) by (unfold rps; rewrite !elem_of_cons; tauto).
  assert (H2 : "scissors" ∈ rps) by (unfold rps; rewrite !elem_of_cons; tauto).
  destruct (beats_trichotomy "rock" "scissors" H1 H2)
    as [(Heq & _)|[H|(_ & Hf & _)]]; [done|exact H|done].
Defined.

(** ** Pymon.Challenge: the price of a battle *)

(** A battle that has ended has cost the challenger exactly one point of
    energy per round lost, draws and wins being free.  The record appended
    to its history carries tallies between 0 and 2, with at most three rounds
    decided, and names the opponent. *)
Theorem Challenge_costs_losses fuel self creature_name inp rnd now w me p cur l opp o :
  objs w !! self = Some me →
  as_pymon me = Some p →
  current_location p = Some cur →
  locs w !! cur = Some l →
  find_opponent creature_name (creatures l) w = mkRun (Ok (Some opp)) w [] →
  opp ≠ self →
  objs w !! opp = Some o →
  adoptable o = true →
  let r := Challenge fuel self creature_name inp rnd now w in
  result r ≠ OutOfFuel →
  ∃ p' rec,
    pymon_at (world r) self = Some p' ∧
    battles (battle_stats p') !! nickname me
      = Some (default [] (battles (battle_stats p) !! nickname me) ++ [rec]) ∧
    opponent rec = nickname o ∧ timestamp rec = now ∧
    energy p' = energy p - losses rec ∧
    0 ≤ wins rec ≤ 2 ∧ 0 ≤ losses rec ≤ 2 ∧ 0 ≤ draws rec ∧
    wins rec + losses rec ≤ 3 ∧
    (wins rec = 2 ∨ losses rec = 2 ∨ energy p' ≤ 0).
Proof.
  intros Hme Hmp Hcur Hl Hfind Hne Ho Had r Hres. unfold r in *.
  rewrite (Challenge_adoptable _ _ _ _ _ _ _ _ _ _ _ _ _
             Hme Hmp Hcur Hl Hfind Hne Ho Had) in *.
  destruct (rounds fuel (nickname me) inp rnd (kickoff (energy p))) as [m|] eqn:Hr;
    [|done].
  destruct (rounds_tallied _ _ _ _ _ _ _ (tallied_kickoff (energy p)) Hr)
    as [(Hw & Hlo & Hd & Hwin & Hhp & Hmin) Hplay].
  apply playing_false in Hplay. rewrite world_after.
  destruct (aftermath_self self cur opp me o m now
              (upd_pymon self (set_energy (hp m)) w) (set_energy (hp m) p))
    as (_ & p' & Hp' & He & Hbs).
  { rewrite pymon_at_upd_pymon. unfold pymon_at. by rewrite Hme; simpl; rewrite Hmp. }
  exists p', (recorded (nickname o) m now). split; [done|].
  split; [by rewrite Hbs, add_battle_spec, lookup_insert_eq|].
  rewrite He. cbn [opponent timestamp wins losses draws recorded energy set_energy].
  repeat split; try lia.
Qed.

(** ** Pymon.Challenge: a match won *)

(** A match won captures the opponent: a new Pymon object is created with
    the opponent's nickname, description and location, energy 3, no item and
    no pet, and is appended at the back of the winner's bench; the opponent
    leaves the list of the room but its own object stays as it was.  The
    winner keeps its inventory and location and has the energy the loop left;
    the call returns normally. *)
Theorem Challenge_won_captures fuel self creature_name inp rnd now w me p cur l opp o m :
  objs w !! self = Some me →
  as_pymon me = Some p →
  current_location p = Some cur →
  locs w !! cur = Some l →
  find_opponent creature_name (creatures l) w = mkRun (Ok (Some opp)) w [] →
  opp ≠ self →
  objs w !! opp = Some o →
  adoptable o = true →
  rounds fuel (nickname me) inp rnd (kickoff (energy p)) = Some m →
  2 ≤ win m →
  let r := Challenge fuel self creature_name inp rnd now w in
  let captured := fresh (dom (objs w)) in
  result r = Ok tt ∧
  objs w !! captured = None ∧
  objs (world r) !! captured
    = Some (new_Pymon (nickname o) (description o) (location o)) ∧
  (∃ p', pymon_at (world r) self = Some p' ∧
     pets p' = pets p ++ [captured] ∧ energy p' = hp m ∧
     _inventory p' = _inventory p ∧ current_location p' = Some cur) ∧
  creatures <$> locs (world r) !! cur = Some (remove_first opp (creatures l)) ∧
  objs (world r) !! opp = Some o.
Proof.
  intros Hme Hmp Hcur Hl Hfind Hne Ho Had Hr Hwin r captured. unfold r.
  rewrite (Challenge_adoptable _ _ _ _ _ _ _ _ _ _ _ _ _
             Hme Hmp Hcur Hl Hfind Hne Ho Had), Hr.
  rewrite result_after, world_after.
  destruct (find_opponent_present _ _ _ _ Hfind) as (Hin & _).
  assert (Hfresh : objs w !! captured = None).
  { apply not_elem_of_dom. apply is_fresh. }
  assert (Hcs : captured ≠ self) by (intros Heq; congruence).
  assert (Hco : captured ≠ opp) by (intros Heq; congruence).
  unfold aftermath. rewrite bind_modify.
  rewrite (proj2 (Z.leb_le 2 (win m)) Hwin), bind_print, result_after, world_after.
  rewrite bind_alloc, !bind_modify.
  set (w1 := upd_pymon self _ (upd_pymon self (set_energy (hp m)) w)).
  assert (Hdom : dom (objs w1) = dom (objs w)).
  { unfold w1, upd_pymon; cbn [objs]. by rewrite !dom_alter_L. }
  rewrite Hdom. fold captured.
  set (w2 := upd_pymon self _ (upd_pymon captured _ _)).
  assert (Hl2 : locs w2 !! cur = Some l) by done.
  rewrite (creatures_remove_run _ _ _ _ Hl2 Hin). cbn [result world].
  split; [done|]. split; [done|].
  unfold w2, w1, upd_loc, upd_pymon, pymon_at; cbn [locs objs].
  split; [|split; [|split]].
  - rewrite lookup_alter_ne, lookup_alter_eq, lookup_insert_eq by done. done.
  - rewrite lookup_alter_eq, lookup_alter_ne, lookup_insert_ne by done.
    rewrite !lookup_alter_eq, Hme. simpl. rewrite Hmp. simpl.
    eexists. split; [reflexivity|]. by simpl.
  - rewrite lookup_alter_eq, Hl. done.
  - rewrite lookup_alter_ne by done. rewrite lookup_alter_ne by done.
    rewrite lookup_insert_ne by done. by rewrite !lookup_alter_ne.
Qed.

(** ** Items *)

Lemma find_item_name name l i :
  find_item name l = Some i → lower (_name i) = lower name ∧ i ∈ l.
Proof.
  induction l as [|a l IH]; simpl; [done|].
  case_bool_decide as Ha.
  - intros [= <-]. split; [done|left].
  - intros H. destruct (IH H). split; [done|by right].
Qed.

(** Removing the item that was found takes exactly that one out. *)
Lemma find_item_remove name l i :
  find_item name l = Some i →
  ∃ l', item_remove i l = Some l' ∧ l ≡ₚ i :: l'.
Proof.
  induction l as [|a l IH]; simpl; [done|].
  case_bool_decide as Ha.
  - intros [= <-]. exists l. by rewrite decide_True.
  - intros H. destruct (find_item_name _ _ _ H) as [Hn _].
    destruct (IH H) as (l' & Hl' & Hperm).
    rewrite decide_False by (intros ->; congruence).
    rewrite Hl'. exists (a :: l'). split; [done|].
    rewrite Hperm. apply Permutation_swap.
Qed.

Lemma inventory_remove_run self item w p l' :
  pymon_at w self = Some p → item_remove item (_inventory p) = Some l' →
  inventory_remove self item w
  = mkRun (Ok tt) (upd_pymon self (set_inventory l') w) [].
Proof.
  intros Hp Hl. unfold inventory_remove.
  by rewrite (bind_get_pymon _ _ _ _ Hp), Hl.
Qed.

Lemma use_item_apple_run self item_name answer w p item l' :
  pymon_at w self = Some p →
  find_item item_name (_inventory p) = Some item →
  lower (_name item) = "apple" →
  energy p < 3 →
  item_remove item (_inventory p) = Some l' →
  use_item self item_name answer w
  = mkRun (Ok tt)
      (upd_pymon self (set_inventory l')
         (upd_pymon self (λ p, set_energy (energy p + 1) p) w))
      ["Your pymon ate the apple. Energy increased by 1"].
Proof.
  intros Hp Hfind Hname He Hrem. unfold use_item.
  rewrite (bind_get_pymon _ _ _ _ Hp), Hfind.
  rewrite (bool_decide_eq_true_2 _ Hname).
  unfold enery_max. rewrite (proj2 (Z.ltb_lt (energy p) 3) He), bind_modify.
  set (w1 := upd_pymon self _ w).
  assert (Hp1 : pymon_at w1 self = Some (set_energy (energy p + 1) p)).
  { unfold w1. by rewrite pymon_at_upd_pymon, Hp. }
  by rewrite (bind_run _ _ _ _ _ _ (inventory_remove_run _ _ _ _ _ Hp1 Hrem)).
Qed.

Lemma use_item_potion_run self item_name answer w p item l' :
  pymon_at w self = Some p →
  find_item item_name (_inventory p) = Some item →
  lower (_name item) = "magic potion" →
  item_remove item (_inventory p) = Some l' →
  use_item self item_name answer w
  = mkRun (Ok tt)
      (upd_pymon self (set_inventory l') (upd_pymon self (set_immunity true) w))
      ["Drinked a magic potion. Temporary immunity activated for the next battle"].
Proof.
  intros Hp Hfind Hname Hrem. unfold use_item.
  rewrite (bind_get_pymon _ _ _ _ Hp), Hfind.
  rewrite bool_decide_eq_false_2 by (rewrite Hname; done).
  rewrite (bool_decide_eq_true_2 _ Hname), bind_modify.
  set (w1 := upd_pymon self _ w).
  assert (Hp1 : pymon_at w1 self = Some (set_immunity true p)).
  { unfold w1. by rewrite pymon_at_upd_pymon, Hp. }
  by rewrite (bind_run _ _ _ _ _ _ (inventory_remove_run _ _ _ _ _ Hp1 Hrem)).
Qed.

(** An apple eaten below the maximum: one point of energy more, and the
    inventory is the one of before without that apple.  Nothing else in the
    store changes. *)
Theorem use_item_apple self item_name answer w p item :
  pymon_at w self = Some p →
  find_item item_name (_inventory p) = Some item →
  lower (_name item) = "apple" →
  energy p < 3 →
  let r := use_item self item_name answer w in
  ∃ l',
    _inventory p ≡ₚ item :: l' ∧
    result r = Ok tt ∧
    stdout r = ["Your pymon ate the apple. Energy increased by 1"] ∧
    pymon_at (world r) self
      = Some (set_inventory l' (set_energy (energy p + 1) p)) ∧
    locs (world r) = locs w ∧
    ∀ o, o ≠ self → objs (world r) !! o = objs w !! o.
Proof.
  intros Hp Hfind Hname He r.
  destruct (find_item_remove _ _ _ Hfind) as (l' & Hrem & Hperm).
  exists l'. split; [done|]. unfold r.
  rewrite (use_item_apple_run _ _ answer _ _ _ _ Hp Hfind Hname He Hrem).
  cbn [result world stdout].
  split; [done|]. split; [done|].
  split; [by rewrite !pymon_at_upd_pymon, Hp|]. split; [done|].
  intros o Ho. unfold upd_pymon; cbn [objs]. by rewrite !lookup_alter_ne.
Qed.

(** An apple at full energy is not eaten: nothing changes. *)
Theorem use_item_apple_at_maximum self item_name answer w p item :
  pymon_at w self = Some p →
  find_item item_name (_inventory p) = Some item →
  lower (_name item) = "apple" →
  3 ≤ energy p →
  use_item self item_name answer w
  = mkRun (Ok tt) w ["Energy is already at maximum."].
Proof.
  intros Hp Hfind Hname He. unfold use_item.
  rewrite (bind_get_pymon _ _ _ _ Hp), Hfind.
  rewrite (bool_decide_eq_true_2 _ Hname).
  unfold enery_max. by rewrite (proj2 (Z.ltb_ge (energy p) 3) He).
Qed.

(** A magic potion sets the immunity flag and is consumed; energy, pets and
    location are as before. *)
Theorem use_item_magic_potion self item_name answer w p item :
  pymon_at w self = Some p →
  find_item item_name (_inventory p) = Some item →
  lower (_name item) = "magic potion" →
  let r := use_item self item_name answer w in
  ∃ l',
    _inventory p ≡ₚ item :: l' ∧
    result r = Ok tt ∧
    pymon_at (world r) self = Some (set_inventory l' (set_immunity true p)) ∧
    locs (world r) = locs w ∧
    ∀ o, o ≠ self → objs (world r) !! o = objs w !! o.
Proof.
  intros Hp Hfind Hname r.
  destruct (find_item_remove _ _ _ Hfind) as (l' & Hrem & Hperm).
  exists l'. split; [done|]. unfold r.
  rewrite (use_item_potion_run _ _ answer _ _ _ _ Hp Hfind Hname Hrem).
  cbn [result world].
  split; [done|].
  split; [by rewrite !pymon_at_upd_pymon, Hp|]. split; [done|].
  intros o Ho. unfold upd_pymon; cbn [objs]. by rewrite !lookup_alter_ne.
Qed.

(** Asking for an item the inventory does not hold, or for a held item that
    is neither an apple, a magic potion nor a binocular, changes nothing; in
    the second case nothing is printed either and the item is kept. *)
Theorem use_item_without_effect self item_name answer w p :
  pymon_at w self = Some p →
  match find_item item_name (_inventory p) with
  | None => True
  | Some item =>
      lower (_name item) ≠ "apple" ∧ lower (_name item) ≠ "magic potion" ∧
      lower (_name item) ≠ "binocular"
  end →
  use_item self item_name answer w
  = mkRun (Ok tt) w
      (if find_item item_name (_inventory p) is None
       then ["This " +:+ item_name +:+ " is not in your inventory."] else []).
Proof.
  intros Hp H. unfold use_item. rewrite (bind_get_pymon _ _ _ _ Hp).
  destruct (find_item item_name (_inventory p)) as [item|]; [|done].
  destruct H as (H1 & H2 & H3).
  by rewrite !bool_decide_eq_false_2.
Qed.

(** *** Looking around: nothing is written *)

Lemma preserves_say P lines : preserves P (say lines).
Proof. by apply preserves_pure. Qed.

Lemma other_nicknames_reads P self cs : preserves P (other_nicknames self cs).
Proof. induction cs as [|c cs IH]; simpl; straight_with ltac:(apply IH). Qed.

Lemma print_creatures_reads P cs : preserves P (print_creatures cs).
Proof. induction cs as [|c cs IH]; simpl; straight_with ltac:(apply IH). Qed.

Lemma location_description_reads P self : preserves P (location_description self).
Proof.
  unfold location_description. straight.
  destruct (current_location _);
    straight_with ltac:(apply other_nicknames_reads).
Qed.

Lemma use_binocular_reads P self answer : preserves P (use_binocular self answer).
Proof.
  unfold use_binocular. case_bool_decide.
  - straight_with ltac:(apply location_description_reads).
  - straight. destruct (current_location _); straight.
    destruct (doors _ !! _) as [[x|]|]; straight.
    destruct (creatures _), (items _);
      straight_with ltac:(first [apply print_creatures_reads|apply preserves_say]).
Qed.

(** The binocular and the description of the current location only read:
    whatever the player answers and whatever the store holds, they leave
    the store as it was. *)
Theorem looking_changes_nothing self answer w :
  world (use_binocular self answer w) = w ∧
  world (location_description self w) = w.
Proof.
  split.
  - by destruct (use_binocular_reads (λ w', w' = w) self answer w eq_refl).
  - by destruct (location_description_reads (λ w', w' = w) self w eq_refl).
Qed.

Lemma use_item_binocular_run self item_name answer w p item l' :
  pymon_at w self = Some p →
  find_item item_name (_inventory p) = Some item →
  lower (_name item) = "binocular" →
  item_remove item (_inventory p) = Some l' →
  match result (use_binocular self answer w) with
  | Ok _ => result (use_item self item_name answer w) = Ok tt ∧
            world (use_item self item_name answer w)
            = upd_pymon self (set_inventory l') w
  | _ => world (use_item self item_name answer w) = w ∧
         result (use_item self item_name answer w) ≠ Ok tt
  end.
Proof.
  intros Hp Hfind Hname Hrem. unfold use_item.
  rewrite (bind_get_pymon _ _ _ _ Hp), Hfind.
  rewrite !bool_decide_eq_false_2 by (rewrite Hname; done).
  rewrite (bool_decide_eq_true_2 _ Hname).
  destruct (use_binocular_reads (λ w', w' = w) self answer w eq_refl) as [Hw _].
  destruct (use_binocular self answer w) as [res w' out] eqn:Hrun.
  simpl in Hw; subst w'. cbn [result].
  destruct res as [[]|e|].
  - rewrite (bind_run _ _ _ _ _ _ Hrun).
    by rewrite (bind_run _ _ _ _ _ _ (inventory_remove_run _ _ _ _ _ Hp Hrem)).
  - unfold mbind, Py_bind, bind. by rewrite Hrun.
  - unfold mbind, Py_bind, bind. by rewrite Hrun.
Qed.

(** A binocular is consumed by a look that went through, and only then: the
    store changes by that one item leaving the inventory. *)
Theorem use_item_binocular self item_name answer w p item :
  pymon_at w self = Some p →
  find_item item_name (_inventory p) = Some item →
  lower (_name item) = "binocular" →
  let r := use_item self item_name answer w in
  match result (use_binocular self answer w) with
  | Ok _ =>
      ∃ l', _inventory p ≡ₚ item :: l' ∧ result r = Ok tt ∧
        world r = upd_pymon self (set_inventory l') w
  | _ => world r = w ∧ result r ≠ Ok tt
  end.
Proof.
  intros Hp Hfind Hname r.
  destruct (find_item_remove _ _ _ Hfind) as (l' & Hrem & Hperm).
  pose proof (use_item_binocular_run self item_name answer w p item l'
                Hp Hfind Hname Hrem) as H.
  destruct (result (use_binocular self answer w)); [|done..].
  exists l'. by split.
Qed.

(** Using an item never takes the energy above 3 and never lowers it,
    whatever the item and the answer. *)
Theorem use_item_energy_cap self item_name answer w p :
  pymon_at w self = Some p →
  energy p ≤ 3 →
  ∃ p', pymon_at (world (use_item self item_name answer w)) self = Some p' ∧
        energy p ≤ energy p' ≤ 3 ∧ energy p' ≤ energy p + 1.
Proof.
  intros Hp He.
  destruct (find_item item_name (_inventory p)) as [item|] eqn:Hfind.
  2:{ exists p. unfold use_item. rewrite (bind_get_pymon _ _ _ _ Hp), Hfind.
      split; [done|lia]. }
  destruct (find_item_remove _ _ _ Hfind) as (l' & Hrem & _).
  destruct (decide (lower (_name item) = "apple")) as [Ha|Ha].
  { destruct (decide (energy p < 3)) as [Hlt|Hge].
    - rewrite (use_item_apple_run _ _ answer _ _ _ _ Hp Hfind Ha Hlt Hrem).
      cbn [world]. rewrite !pymon_at_upd_pymon, Hp.
      eexists. split; [reflexivity|]. simpl. lia.
    - exists p. unfold use_item. rewrite (bind_get_pymon _ _ _ _ Hp), Hfind.
      rewrite (bool_decide_eq_true_2 _ Ha). unfold enery_max.
      rewrite (proj2 (Z.ltb_ge (energy p) 3)) by lia. split; [done|lia]. }
  destruct (decide (lower (_name item) = "magic potion")) as [Hm|Hm].
  { rewrite (use_item_potion_run _ _ answer _ _ _ _ Hp Hfind Hm Hrem).
    cbn [world]. rewrite !pymon_at_upd_pymon, Hp.
    eexists. split; [reflexivity|]. simpl. lia. }
  destruct (decide (lower (_name item) = "binocular")) as [Hb|Hb].
  { pose proof (use_item_binocular_run self item_name answer w p item l'
                  Hp Hfind Hb Hrem) as H.
    destruct (result (use_binocular self answer w)).
    - destruct H as [_ ->]. rewrite pymon_at_upd_pymon, Hp.
      eexists. split; [reflexivity|]. simpl. lia.
    - destruct H as [-> _]. exists p. split; [done|lia].
    - destruct H as [-> _]. exists p. split; [done|lia]. }
  exists p. unfold use_item. rewrite (bind_get_pymon _ _ _ _ Hp), Hfind.
  rewrite !bool_decide_eq_false_2 by done. split; [done|lia].
Qed.

(** *** Pymon.pick_item *)

(** Picking up an item of the room that can be picked up moves it: it is
    appended to the inventory and its first occurrence leaves the list of
    the room, the other items staying in their order, so that the items of
    the room and of the inventory taken together are the same as before.
    Energy, pets and location do not change. *)
Theorem pick_item_moves self name w p cur l item :
  pymon_at w self = Some p →
  current_location p = Some cur →
  locs w !! cur = Some l →
  find_item name (items l) = Some item →
  pick_up_items item = true →
  let r := pick_item self name w in
  ∃ l',
    item_remove item (items l) = Some l' ∧
    items l ≡ₚ item :: l' ∧
    r = mkRun (Ok tt)
          (upd_loc cur (set_items (λ _, l'))
             (upd_pymon self (λ p, set_inventory (_inventory p ++ [item]) p) w))
          [name +:+ " has been added to your inventory."] ∧
    pymon_at (world r) self = Some (set_inventory (_inventory p ++ [item]) p) ∧
    items <$> locs (world r) !! cur = Some l' ∧
    _inventory p ++ items l ≡ₚ (_inventory p ++ [item]) ++ l'.
Proof.
  intros Hp Hcur Hl Hfind Hpick r.
  destruct (find_item_remove _ _ _ Hfind) as (l' & Hrem & Hperm).
  exists l'. split; [done|]. split; [done|].
  assert (Hr : r = mkRun (Ok tt)
          (upd_loc cur (set_items (λ _, l'))
             (upd_pymon self (λ p, set_inventory (_inventory p ++ [item]) p) w))
          [name +:+ " has been added to your inventory."]).
  { unfold r, pick_item.
    rewrite (bind_get_pymon _ _ _ _ Hp), Hcur, (bind_get_loc _ _ _ _ Hl), Hfind, Hpick.
    rewrite bind_modify, (bind_get_loc _ _ _ l) by done.
    by rewrite Hrem, bind_modify. }
  split; [done|]. rewrite Hr. cbn [world].
  split; [by rewrite pymon_at_upd_loc, pymon_at_upd_pymon, Hp|].
  split.
  { rewrite locs_upd_loc, decide_True by done.
    unfold upd_pymon; cbn [locs]. by rewrite Hl. }
  rewrite Hperm, <- app_assoc. apply Permutation_app_head. done.
Qed.

(** An item that is not in the room, or that cannot be picked up, stays
    where it is: the store does not change. *)
Theorem pick_item_refused self name w p cur l :
  pymon_at w self = Some p →
  current_location p = Some cur →
  locs w !! cur = Some l →
  match find_item name (items l) with
  | None => True
  | Some item => pick_up_items item = false
  end →
  pick_item self name w
  = mkRun (Ok tt) w
      [if find_item name (items l) is None
       then name +:+ " is not available here."
       else name +:+ " cannot be picked up."].
Proof.
  intros Hp Hcur Hl H. unfold pick_item.
  rewrite (bind_get_pymon _ _ _ _ Hp), Hcur, (bind_get_loc _ _ _ _ Hl).
  destruct (find_item name (items l)) as [item|]; [|done]. by rewrite H.
Qed.

(** ** The bench, position by position *)

(** A position of the list shown, from 1 to the size of the bench: the pet
    at that position becomes the active Pymon, it leaves the bench of the
    former active Pymon and the former active Pymon is appended to that same
    bench. *)
Theorem select_position_switches self user w p sel s :
  pymon_at w (current_pymon self) = Some p →
  Forall (λ x, is_Some (objs w !! x)) (pets p) →
  1 ≤ user ≤ Z.of_nat (length (pets p)) →
  pets p !! Z.to_nat (user - 1) = Some sel →
  objs w !! sel = Some s →
  let r := select_benched_pymon self (Some user) w in
  active r = Some sel ∧
  last (stdout r) = Some ("Your Primary Pymon is now: " +:+ nickname s) ∧
  world r
  = upd_pymon (current_pymon self)
      (λ p, set_pets (pets p ++ [current_pymon self]) p)
      (upd_pymon (current_pymon self)
         (set_pets (delete (Z.to_nat (user - 1)) (pets p))) w) ∧
  pets <$> pymon_at (world r) (current_pymon self)
  = Some (delete (Z.to_nat (user - 1)) (pets p) ++ [current_pymon self]).
Proof.
  intros Hp Hall Hu Hsel Hs r.
  destruct (select_switches self user w p sel _ s Hp Hall ltac:(lia)
              (list_pop_front (user - 1) (pets p) sel ltac:(lia) Hsel) Hs)
    as [out Hr].
  unfold r. rewrite Hr. unfold active; cbn [result world stdout].
  split; [done|]. split; [by rewrite last_snoc|]. split; [done|].
  by rewrite !pymon_at_upd_pymon, Hp.
Qed.

(** An answer that is not an integer, or a position beyond the bench in
    either direction, is refused: the error is printed last, the active Pymon
    and the whole store stay as they were. *)
Theorem select_position_refused self user w p :
  pymon_at w (current_pymon self) = Some p →
  Forall (λ x, is_Some (objs w !! x)) (pets p) →
  pets p ≠ [] →
  match user with
  | None => True
  | Some u => Z.of_nat (length (pets p)) < u ∨ u ≤ - Z.of_nat (length (pets p))
  end →
  let r := select_benched_pymon self user w in
  result r = Ok self ∧ world r = w ∧
  last (stdout r) = Some "Error: Invalid selection.".
Proof.
  intros Hp Hall Hne Hu r.
  destruct (select_rejects self user w p Hp Hall Hne) as [out Hr].
  { destruct user as [u|]; [|done]. split.
    - destruct (pets p); [done|]. simpl in Hu. lia.
    - apply list_pop_outside. lia. }
  unfold r. rewrite Hr. cbn [result world stdout].
  split; [done|]. split; [done|]. by rewrite last_snoc.
Qed.

(** With no pet on the bench there is nothing to choose: whatever the
    answer would be, one line is printed and nothing changes. *)
Theorem select_empty_bench self user w p :
  pymon_at w (current_pymon self) = Some p →
  pets p = [] →
  select_benched_pymon self user w
  = mkRun (Ok self) w ["You dont have any other Pymon"].
Proof.
  intros Hp Hpets. unfold select_benched_pymon.
  by rewrite (bind_get_pymon _ _ _ _ Hp), Hpets.
Qed.

(** ** The immunity flag *)

Lemma flagged_upd_pymon self b o f w :
  keeps_flag f → flagged self b w → flagged self b (upd_pymon o f w).
Proof.
  intros Hf (p & Hp & Hb). unfold flagged.
  rewrite pymon_at_upd_pymon_any, Hp.
  case_decide; [|by exists p]. exists (f p). by rewrite Hf.
Qed.

Lemma flagged_modify self b o f :
  keeps_flag f → preserves (flagged self b) (modify (upd_pymon o f)).
Proof. intros Hf. apply preserves_modify. intros w. by apply flagged_upd_pymon. Qed.

Lemma flagged_creatures_remove self b loc x :
  preserves (flagged self b) (creatures_remove loc x).
Proof.
  apply preserves_bind; [apply preserves_get_loc|]. intros l.
  case_bool_decide; [|apply preserves_raise]. by apply preserves_modify.
Qed.

Lemma aftermath_flag self cur opp me o m now w b :
  flagged self b w → flagged self b (world (aftermath self cur opp me o m now w)).
Proof.
  intros H. unfold aftermath. rewrite bind_modify.
  set (w1 := upd_pymon self _ w).
  assert (H1 : flagged self b w1) by (by apply flagged_upd_pymon).
  clearbody w1. clear H.
  destruct (2 <=? win m).
  - rewrite bind_print, world_after, bind_alloc, !bind_modify.
    set (c := fresh (dom (objs w1))).
    assert (Hc : c ≠ self).
    { intros Heq. destruct H1 as (p1 & Hp1 & _). unfold pymon_at in Hp1.
      destruct (objs w1 !! self) as [x|] eqn:Hx; [|done].
      apply (is_fresh (dom (objs w1))). fold c. rewrite Heq.
      apply elem_of_dom. by eexists. }
    apply (flagged_creatures_remove self b cur opp).
    apply flagged_upd_pymon; [done|].
    destruct H1 as (p1 & Hp1 & Hb1). exists p1.
    rewrite pymon_at_upd_pymon_ne by done. split; [|done].
    unfold pymon_at in *; simpl. by rewrite lookup_insert_ne.
  - rewrite bind_print, world_after.
    cut (preserves (flagged self b)
      (get_pymon self ≫= λ p0,
        match pets p0 with
        | [] => print "You dont have any Pymon left to help you in this game. GAME OVER!";;
                raise (SystemExit 0)
        | next_pymon :: rest =>
            modify (upd_pymon self (set_pets rest));;
            modify (upd_pymon next_pymon
                      (λ q, set_inventory (_inventory q ++ _inventory p0) q));;
            modify (upd_pymon self (set_inventory []));;
            n ← get_obj next_pymon;
            print (nickname n +:+ " is now your primary Pymon.");;
            q ← get_pymon next_pymon;
            modify (upd_pymon self (set_current_location (current_location q)))
        end)).
    { intros Hpre. by destruct (Hpre w1 H1). }
    apply preserves_bind; [apply preserves_get_pymon|]. intros p0.
    destruct (pets p0) as [|next rest].
    + apply preserves_bind; [apply preserves_print|]. intros _. apply preserves_raise.
    + repeat (apply preserves_bind;
        [first [apply preserves_print | apply preserves_get_obj
               | apply preserves_get_pymon
               | by apply flagged_modify]
        | intros ?]).
      by apply flagged_modify.
Qed.

(** Neither a move nor a battle changes the immunity flag: along any
    sequence of moves and challenges the flag of the active Pymon is the one
    it had at the start.  A magic potion, once drunk, is therefore never used
    up by a battle. *)
Theorem immunity_outlives_battles cs : ∀ self w p,
  pymon_at w (current_pymon self) = Some p →
  ∃ p', pymon_at (world (commands self cs w)) (current_pymon self) = Some p' ∧
        immunity p' = immunity p.
Proof.
  induction cs as [|c cs IH]; intros self w p Hp; [by exists p|].
  assert (Hstep : ∃ p1, pymon_at (world (command self c w)) (current_pymon self)
                        = Some p1 ∧ immunity p1 = immunity p).
  { destruct c as [direction r|fuel creature_name inp rnd now]; simpl.
    - destruct (move_pymon_run self direction r w) as (-> & _).
      destruct (destination w (current_pymon self) direction) as [nl|] eqn:Hd.
      + exists (moved nl p). split; [by apply move_moved|].
        unfold moved. by destruct (2 <=? _).
      + rewrite (move_stuck _ _ _ _ Hd). by exists p.
    - destruct (challenge_creature_run self fuel creature_name inp rnd now w)
        as (-> & _).
      destruct (Challenge_cases fuel (current_pymon self) creature_name inp rnd
                  now w p Hp)
        as [[-> _]|(me & cur & l & opp & o & Hme & Hmp & Hcur & Hl & Hfind
                     & Hne & Ho & Had)]; [by exists p|].
      rewrite (Challenge_adoptable _ _ _ _ _ _ _ _ _ _ _ _ _
                 Hme Hmp Hcur Hl Hfind Hne Ho Had).
      destruct (rounds fuel (nickname me) inp rnd (kickoff (energy p))) as [m|];
        [|by exists p].
      rewrite world_after. apply aftermath_flag.
      exists (set_energy (hp m) p). by rewrite pymon_at_upd_pymon, Hp. }
  destruct Hstep as (p1 & Hp1 & Hi1).
  destruct (command_energy self c w p Hp) as (Hop & _).
  cbn [commands]. unfold mbind, Py_bind, bind.
  destruct (result (command self c w)) as [op| |] eqn:Hres; cbn [world].
  - rewrite (Hop op eq_refl).
    destruct (IH self _ p1 Hp1) as (p' & Hp' & Hi'). exists p'.
    split; [done|congruence].
  - by exists p1.
  - by exists p1.
Qed.

End game.

(** * Sessions typed in ASCII

    A run that hands only ASCII strings to [str.lower()] does not depend on
    what [str.lower()] does to the other strings: it is the run of
    [ascii_text].  This holds of the rounds of a battle, hence of a whole
    session of commands, and of the search for an item by its name. *)

Lemma bind_agree {A B} (m1 m2 : Py A) (f g : A → Py B) w :
  m1 w = m2 w → (∀ a w', f a w' = g a w') → (m1 ≫= f) w = (m2 ≫= g) w.
Proof.
  intros Hm Hf. unfold mbind, Py_bind, bind. rewrite Hm.
  destruct (result (m2 w)); by rewrite ?Hf.
Qed.

Lemma play_round_ascii {text : StrLower} nick inp rnd m :
  is_ascii (inp (asked m)) = true →
  play_round nick inp rnd m = play_round (text:=ascii_text) nick inp rnd m.
Proof. intros H. unfold play_round. by rewrite (lower_ascii_text _ H). Qed.

Lemma rounds_ascii {text : StrLower} nick inp rnd fuel :
  (∀ i, is_ascii (inp i) = true) →
  ∀ m, rounds fuel nick inp rnd m = rounds (text:=ascii_text)
        fuel nick inp rnd m.
Proof.
  intros H. induction fuel as [|fuel IH]; intros m; cbn [rounds]; [done|].
  destruct (playing m); [|done]. rewrite play_round_ascii by done. apply IH.
Qed.

Lemma battle_ascii {text : StrLower} fuel self inp rnd w :
  (∀ i, is_ascii (inp i) = true) →
  battle fuel self inp rnd w = battle (text:=ascii_text) fuel self inp rnd w.
Proof.
  intros H. unfold battle.
  apply bind_agree; [done|]. intros me w1.
  apply bind_agree; [done|]. intros p w2.
  by rewrite rounds_ascii.
Qed.

Lemma Challenge_ascii {text : StrLower} fuel self creature_name inp rnd now w :
  (∀ i, is_ascii (inp i) = true) →
  Challenge fuel self creature_name inp rnd now w
  = Challenge (text:=ascii_text) fuel self creature_name inp rnd now w.
Proof.
  intros H. unfold Challenge.
  apply bind_agree; [done|]. intros p w1.
  destruct (current_location p) as [cur|]; [|done].
  apply bind_agree; [done|]. intros l w2.
  apply bind_agree; [done|]. intros [opponent|] w3; [|done].
  destruct (bool_decide (opponent = self)); [done|].
  apply bind_agree; [done|]. intros o w4.
  destruct (negb (adoptable o)); [done|].
  apply bind_agree; [done|]. intros me w5.
  apply bind_agree; [done|]. intros _ w6.
  apply bind_agree; [by apply battle_ascii|done].
Qed.

Lemma find_item_ascii {text : StrLower} name l :
  is_ascii name = true → Forall (λ i, is_ascii (_name i) = true) l →
  find_item name l = find_item (text:=ascii_text) name l.
Proof.
  intros Hn. induction 1 as [|i l Hi _ IH]; cbn [find_item]; [done|].
  by rewrite (lower_ascii_text _ Hi), (lower_ascii_text _ Hn), IH.
Qed.

Lemma commands_ascii {text : StrLower} cs :
  Forall ascii_typed cs →
  ∀ self w, commands self cs w = commands (text:=ascii_text) self cs w.
Proof.
  induction 1 as [|c cs Hc _ IH]; intros self w; cbn [commands]; [done|].
  apply bind_agree; [|intros; apply IH].
  destruct c as [direction r|fuel creature_name inp rnd now]; [done|].
  cbn [command]. unfold challenge_creature.
  apply bind_agree; [by apply Challenge_ascii|done].
Qed.

(** C1, as stated, fails twice.  When the player keeps choosing rock and the
    opponent keeps drawing rock, the loop of a challenge against an adoptable
    creature has not ended after any number of passes.  And a Pymon of
    energy 2 that loses two rounds leaves the loop with two of the three
    conditions true at once: two losses and energy 0.  Both hold whatever
    [str.lower()] does outside ASCII. *)
Lemma Challenge_draws_forever :
  (∀ (text : StrLower) fuel,
     result (Challenge fuel 0%nat "Bulba" (always "rock") rock 0 forest_cave)
     = OutOfFuel) ∧
  (∀ text : StrLower,
     ∃ m, rounds 2 "Kimimon" (always "rock") paper (kickoff 2) = Some m ∧
          2 ≤ loss m ∧ hp m = 0 ∧ win m < 2).
Proof.
  split.
  - intros text fuel.
    assert (Hme : objs forest_cave !! 0%nat = Some fresh_kimimon) by reflexivity.
    assert (Ho : objs forest_cave !! 1%nat = Some bulba) by reflexivity.
    assert (Hl : ∃ l, locs forest_cave !! 0%nat = Some l ∧ creatures l = [0; 1; 2]%nat).
    { eexists. split; reflexivity. }
    destruct Hl as (l & Hl & Hcs).
    assert (Hfind : find_opponent "Bulba" (creatures l) forest_cave
                    = mkRun (Ok (Some 1%nat)) forest_cave []).
    { rewrite Hcs. cbn [find_opponent].
      rewrite (bind_get_obj _ _ _ _ Hme), bool_decide_eq_false_2 by done.
      by rewrite (bind_get_obj _ _ _ _ Ho), bool_decide_eq_true_2. }
    rewrite (Challenge_adoptable fuel 0%nat "Bulba" (always "rock") rock 0
               forest_cave fresh_kimimon _ 0%nat l 1%nat bulba
               Hme eq_refl eq_refl Hl Hfind ltac:(lia) Ho eq_refl).
    by rewrite rounds_draw_forever.
  - intros text. rewrite rounds_ascii by done.
    eexists. split; [reflexivity|]. simpl. lia.
Qed.

(** C2, as stated, fails: a new Pymon that walks east and west between two
    connected rooms eight times ends with energy -1. *)
Lemma eight_moves_negative_energy :
  energy_of forest_cave 0%nat = Some 3 ∧
  ∀ text : StrLower,
    result (commands kimimon eight_moves forest_cave) = Ok kimimon ∧
    energy_of (world (commands kimimon eight_moves forest_cave)) 0%nat = Some (-1).
Proof. split; [done|]. intros text. vm_compute. done. Qed.

(** C3, at a failing input.  The player's Pymon, carrying an apple, captures
    Bulba in the first room, walks east and loses a match against Zubat.
    Bulba, object 4, was the only pet: it is popped from the bench, receives
    the apple, the loser's inventory is emptied and the loser's location
    reference becomes Bulba's room, while the loser stays listed among the
    creatures of the second room.  The line announcing Bulba as the primary
    Pymon is printed, but the active Pymon of the session is still the
    loser, object 0; nothing refers to Bulba any more. *)
Theorem lost_match_keeps_loser_active {text : StrLower} :
  let before := world (commands kimimon (take 2 win_then_lose) stocked) in
  let r := commands kimimon win_then_lose stocked in
  pets <$> pymon_at before 0%nat = Some [4%nat] ∧
  _inventory <$> pymon_at before 0%nat = Some [apple] ∧
  active r = Some 0%nat ∧
  pets <$> pymon_at (world r) 0%nat = Some [] ∧
  _inventory <$> pymon_at (world r) 4%nat = Some [apple] ∧
  _inventory <$> pymon_at (world r) 0%nat = Some [] ∧
  current_location <$> pymon_at (world r) 4%nat = Some (Some 0%nat) ∧
  current_location <$> pymon_at (world r) 0%nat = Some (Some 0%nat) ∧
  creatures <$> locs (world r) !! 1%nat = Some [3; 0]%nat ∧
  last (stdout r) = Some "Bulba is now your primary Pymon.".
Proof.
  cbv zeta.
  rewrite (commands_ascii (text:=text) (take 2 win_then_lose))
    by (repeat apply Forall_cons_2; try apply Forall_nil_2; done).
  rewrite (commands_ascii (text:=text) win_then_lose)
    by (repeat apply Forall_cons_2; try apply Forall_nil_2; done).
  vm_compute. repeat split.
Qed.

(** C8, at a failing input.  With two pets on the bench, objects 4 and 5,
    the player answers -1, which is no position of the list shown.  No error
    is reported: [pop(-2)] takes the first pet, which becomes the active
    Pymon, and the bench of the former active Pymon changes.  The former
    active Pymon has been appended to its own bench, not to the bench of the
    Pymon now active, which is empty. *)
Theorem negative_index_switches {text : StrLower} :
  let w := world (commands kimimon win_twice stocked) in
  let r := select_benched_pymon kimimon (Some (-1)) w in
  pets <$> pymon_at w 0%nat = Some [4; 5]%nat ∧
  active r = Some 4%nat ∧
  stdout r = [newline +:+ "Available Pymons:"; "1) Bulba - a creature";
              "2) Zubat - a creature"; "Your Primary Pymon is now: Bulba"] ∧
  pets <$> pymon_at (world r) 0%nat = Some [5; 0]%nat ∧
  pets <$> pymon_at (world r) 4%nat = Some [].
Proof.
  cbv zeta.
  rewrite (commands_ascii (text:=text) win_twice)
    by (repeat apply Forall_cons_2; try apply Forall_nil_2; done).
  vm_compute. repeat split.
Qed.

(** * The theorems at concrete sessions

    The sessions that follow are typed in ASCII; they are run with
    [ascii_text]. *)

#[local] Existing Instance ascii_text.

Lemma two_pets_bench :
  ∃ p, pymon_at two_pets 0%nat = Some p ∧ pets p = [4; 5]%nat ∧
       Forall (λ x, is_Some (objs two_pets !! x)) (pets p).
Proof.
  eexists. split; [vm_compute; reflexivity|]. split; [reflexivity|].
  repeat apply Forall_cons_2; [..|apply Forall_nil_2]; vm_compute; by eexists.
Qed.



Lemma Challenge_non_adoptable_witness :
  ∃ line, line ∈ random_dialogue "Rocky" ∧
    Challenge O 0%nat "Rocky" (λ _, "rock") (λ _, O) 0 forest_cave
    = mkRun (Ok tt) forest_cave [line].
Proof.
  refine (proj2 (proj2 (Challenge_non_adoptable (text:=ascii_text)
        O 0%nat "Rocky" (λ _, "rock")
            (λ _, O) 0 forest_cave _ 0%nat _ 2%nat (wild "Rocky" 0 false)
            eq_refl eq_refl eq_refl eq_refl _ eq_refl eq_refl))).
  lia.
Defined.

Lemma Challenge_at_zero_energy_witness :
  energy_of worn_out 0%nat = Some 0 ∧
  result (Challenge O 0%nat "Bulba" (λ _, "rock") (λ _, O) 7 worn_out)
  = Raise (SystemExit 0).
Proof.
  assert (Hme : objs worn_out !! 0%nat = Some tired_me) by (vm_compute; reflexivity).
  assert (Hl : ∃ l, locs worn_out !! 0%nat = Some l ∧ creatures l = [1; 2; 0]%nat).
  { eexists. split; vm_compute; reflexivity. }
  destruct Hl as (l & Hl & Hcs).
  assert (Ho : objs worn_out !! 1%nat = Some (wild "Bulba" 0 true))
    by (vm_compute; reflexivity).
  assert (Hfind : find_opponent "Bulba" (creatures l) worn_out
                  = mkRun (Ok (Some 1%nat)) worn_out []).
  { rewrite Hcs. cbn [find_opponent].
    by rewrite (bind_get_obj _ _ _ _ Ho), bool_decide_eq_true_2. }
  split; [vm_compute; reflexivity|].
  destruct (Challenge_at_zero_energy (text:=ascii_text)
        O 0%nat "Bulba" (λ _, "rock") (λ _, O) 7
     worn_out tired_me tired_kimimon 0%nat l 1%nat (wild "Bulba" 0 true)
     Hme eq_refl eq_refl Hl Hfind ltac:(lia) Ho eq_refl eq_refl)
    as (_ & _ & H).
  simpl in H. by rewrite H.
Defined.

Lemma Challenge_settles_witness :
  ∃ m, rounds 3 "Kimimon" (always "rock") scissors (kickoff 3) = Some m ∧
       (2 ≤ win m ∨ 2 ≤ loss m ∨ hp m ≤ 0) ∧
       result (Challenge 3 0%nat "Bulba" (always "rock") scissors 0 forest_cave)
       ≠ OutOfFuel.
Proof.
  assert (Hme : objs forest_cave !! 0%nat = Some fresh_kimimon) by reflexivity.
  assert (Ho : objs forest_cave !! 1%nat = Some bulba) by reflexivity.
  assert (Hl : ∃ l, locs forest_cave !! 0%nat = Some l ∧ creatures l = [0; 1; 2]%nat).
  { eexists. split; reflexivity. }
  destruct Hl as (l & Hl & Hcs).
  assert (Hfind : find_opponent "Bulba" (creatures l) forest_cave
                  = mkRun (Ok (Some 1%nat)) forest_cave []).
  { rewrite Hcs. cbn [find_opponent].
    rewrite (bind_get_obj _ _ _ _ Hme), bool_decide_eq_false_2 by done.
    by rewrite (bind_get_obj _ _ _ _ Ho), bool_decide_eq_true_2. }
  destruct (Challenge_settles (text:=ascii_text) 0%nat "Bulba" (always "rock")
              scissors 0 forest_cave fresh_kimimon _ 0%nat l 1%nat bulba
              Hme eq_refl eq_refl Hl Hfind ltac:(lia) Ho eq_refl)
    as (_ & Hthree & Hexit).
  destruct (Hthree 3%nat) as [m Hm]; [vm_compute; lia|].
  destruct (Hexit 3%nat m Hm) as (_ & Hex & _ & _ & Hrun).
  exists m. split; [exact Hm|]. split; [exact Hex|].
  apply (Hrun 3%nat). lia.
Defined.

Lemma energy_after_commands_witness :
  ∃ p', pymon_at (world (commands kimimon eight_moves forest_cave)) 0%nat = Some p' ∧
        energy p' ≤ 3 ∧ -8 ≤ energy p'.
Proof.
  destruct (energy_after_commands (text:=ascii_text)
        eight_moves kimimon forest_cave
              {| current_location := Some 0%nat; energy := 3; _inventory := [];
                 pets := []; track_moves := 0; immunity := false;
                 battle_stats := {| battles := ∅ |} |} eq_refl ltac:(simpl; lia))
    as (_ & p' & Hp' & H3 & _ & Hlow).
  exists p'. split; [exact Hp'|]. split; [exact H3|exact Hlow].
Defined.

Lemma Challenge_nobody_witness :
  Challenge O 0%nat "Zubat" (always "rock") rock 0 forest_cave
  = mkRun (Ok tt) forest_cave ["Zubat is not available here."].
Proof.
  assert (Hl : ∃ l, locs forest_cave !! 0%nat = Some l ∧ creatures l = [0; 1; 2]%nat)
    by (eexists; split; reflexivity).
  destruct Hl as (l & Hl & Hcs).
  apply (Challenge_nobody (text:=ascii_text)
        O 0%nat "Zubat" (always "rock") rock 0 forest_cave
           _ 0%nat l eq_refl eq_refl Hl).
  rewrite Hcs. repeat apply Forall_cons_2; [..|apply Forall_nil_2];
    (eexists; split; [reflexivity|done]).
Defined.

Lemma Challenge_itself_witness :
  Challenge O 0%nat "Kimimon" (always "rock") rock 0 forest_cave
  = mkRun (Ok tt) forest_cave ["You cannot challenge your own Pymon."].
Proof.
  assert (Hl : ∃ l, locs forest_cave !! 0%nat = Some l ∧ creatures l = [0; 1; 2]%nat)
    by (eexists; split; reflexivity).
  destruct Hl as (l & Hl & Hcs).
  apply (Challenge_itself (text:=ascii_text)
        O 0%nat "Kimimon" (always "rock") rock 0 forest_cave
           _ 0%nat l eq_refl eq_refl Hl).
  rewrite Hcs. reflexivity.
Defined.

Lemma Challenge_costs_losses_witness :
  ∃ p' rec,
    pymon_at (world (Challenge 5 0%nat "Bulba" (always "rock") paper 0 forest_cave))
      0%nat = Some p' ∧
    energy p' = 3 - losses rec ∧ losses rec = 2.
Proof.
  assert (Hme : objs forest_cave !! 0%nat = Some fresh_kimimon) by reflexivity.
  assert (Ho : objs forest_cave !! 1%nat = Some bulba) by reflexivity.
  assert (Hl : ∃ l, locs forest_cave !! 0%nat = Some l ∧ creatures l = [0; 1; 2]%nat)
    by (eexists; split; reflexivity).
  destruct Hl as (l & Hl & Hcs).
  assert (Hfind : find_opponent "Bulba" (creatures l) forest_cave
                  = mkRun (Ok (Some 1%nat)) forest_cave []).
  { rewrite Hcs. cbn [find_opponent].
    rewrite (bind_get_obj _ _ _ _ Hme), bool_decide_eq_false_2 by done.
    by rewrite (bind_get_obj _ _ _ _ Ho), bool_decide_eq_true_2. }
  assert (Hres : result (Challenge 5 0%nat "Bulba" (always "rock") paper 0 forest_cave)
                 ≠ OutOfFuel) by (vm_compute; discriminate).
  destruct (Challenge_costs_losses (text:=ascii_text)
        5 0%nat "Bulba" (always "rock") paper 0
              forest_cave fresh_kimimon _ 0%nat l 1%nat bulba
              Hme eq_refl eq_refl Hl Hfind ltac:(lia) Ho eq_refl Hres)
    as (p' & rec & Hp' & _ & _ & _ & He & Hw & Hlo & _ & _ & Hexit).
  exists p', rec. split; [exact Hp'|]. split; [exact He|].
  assert (Hen : energy_of (world (Challenge 5 0%nat "Bulba" (always "rock") paper 0
                  forest_cave)) 0%nat = Some 1) by (vm_compute; reflexivity).
  unfold energy_of in Hen. rewrite Hp' in Hen. injection Hen as Hen.
  simpl in He. lia.
Defined.

Lemma Challenge_won_captures_witness :
  result (Challenge 5 0%nat "Bulba" (always "rock") scissors 0 forest_cave) = Ok tt ∧
  creatures <$> locs (world (Challenge 5 0%nat "Bulba" (always "rock") scissors 0
                               forest_cave)) !! 0%nat = Some [0; 2]%nat.
Proof.
  assert (Hme : objs forest_cave !! 0%nat = Some fresh_kimimon) by reflexivity.
  assert (Ho : objs forest_cave !! 1%nat = Some bulba) by reflexivity.
  assert (Hl : ∃ l, locs forest_cave !! 0%nat = Some l ∧ creatures l = [0; 1; 2]%nat)
    by (eexists; split; reflexivity).
  destruct Hl as (l & Hl & Hcs).
  assert (Hfind : find_opponent "Bulba" (creatures l) forest_cave
                  = mkRun (Ok (Some 1%nat)) forest_cave []).
  { rewrite Hcs. cbn [find_opponent].
    rewrite (bind_get_obj _ _ _ _ Hme), bool_decide_eq_false_2 by done.
    by rewrite (bind_get_obj _ _ _ _ Ho), bool_decide_eq_true_2. }
  assert (Hm : ∃ m, rounds 5 "Kimimon" (always "rock") scissors (kickoff 3) = Some m
                    ∧ win m = 2) by (eexists; split; reflexivity).
  destruct Hm as (m & Hm & Hwin).
  destruct (Challenge_won_captures (text:=ascii_text)
        5 0%nat "Bulba" (always "rock") scissors 0
              forest_cave fresh_kimimon _ 0%nat l 1%nat bulba m
              Hme eq_refl eq_refl Hl Hfind ltac:(lia) Ho eq_refl Hm ltac:(lia))
    as (Hres & _ & _ & _ & Hroom & _).
  split; [exact Hres|]. rewrite Hroom, Hcs. reflexivity.
Defined.

Lemma use_item_apple_witness :
  energy_of (world (use_item 0%nat "APPLE" "" packed)) 0%nat = Some 3.
Proof.
  assert (Hp : pymon_at packed 0%nat
               = Some (kimimon_with [potion; binocular; apple] 2))
    by (vm_compute; reflexivity).
  destruct (use_item_apple (text:=ascii_text) 0%nat "APPLE" "" packed _ apple Hp
              ltac:(vm_compute; reflexivity) ltac:(vm_compute; reflexivity)
              ltac:(simpl; lia)) as (l' & _ & _ & _ & H & _).
  unfold energy_of. rewrite H. reflexivity.
Defined.

Lemma use_item_apple_at_maximum_witness :
  use_item 0%nat "apple" "" stocked
  = mkRun (Ok tt) stocked ["Energy is already at maximum."].
Proof.
  assert (Hp : pymon_at stocked 0%nat = Some (kimimon_with [apple] 3))
    by (vm_compute; reflexivity).
  apply (use_item_apple_at_maximum (text:=ascii_text)
        0%nat "apple" "" stocked _ apple Hp);
    [vm_compute; reflexivity..|simpl; lia].
Defined.

Lemma use_item_magic_potion_witness :
  immunity <$> pymon_at (world (use_item 0%nat "magic potion" "" packed)) 0%nat
  = Some true.
Proof.
  assert (Hp : pymon_at packed 0%nat
               = Some (kimimon_with [potion; binocular; apple] 2))
    by (vm_compute; reflexivity).
  destruct (use_item_magic_potion (text:=ascii_text)
        0%nat "magic potion" "" packed _ potion Hp
              ltac:(vm_compute; reflexivity) ltac:(vm_compute; reflexivity))
    as (l' & _ & _ & H & _).
  rewrite H. reflexivity.
Defined.

Lemma use_item_without_effect_witness :
  use_item 0%nat "sword" "" stocked
  = mkRun (Ok tt) stocked ["This sword is not in your inventory."].
Proof.
  assert (Hp : pymon_at stocked 0%nat = Some (kimimon_with [apple] 3))
    by (vm_compute; reflexivity).
  assert (Hf : find_item "sword" (_inventory (kimimon_with [apple] 3)) = None)
    by (vm_compute; reflexivity).
  rewrite (use_item_without_effect (text:=ascii_text)
        0%nat "sword" "" stocked _ Hp); rewrite Hf; done.
Defined.

Lemma use_item_binocular_witness :
  ∃ l', [potion; binocular; apple] ≡ₚ binocular :: l' ∧
    world (use_item 0%nat "Binocular" "east" packed)
    = upd_pymon 0%nat (set_inventory l') packed.
Proof.
  assert (Hp : pymon_at packed 0%nat
               = Some (kimimon_with [potion; binocular; apple] 2))
    by (vm_compute; reflexivity).
  assert (Hlook : result (use_binocular 0%nat "east" packed) = Ok tt)
    by (vm_compute; reflexivity).
  pose proof (use_item_binocular (text:=ascii_text)
        0%nat "Binocular" "east" packed _ binocular Hp
                ltac:(vm_compute; reflexivity) ltac:(vm_compute; reflexivity)) as H.
  cbv zeta in H. rewrite Hlook in H. destruct H as (l' & Hperm & _ & Hw).
  exists l'. split; [exact Hperm|exact Hw].
Defined.

Lemma use_item_energy_cap_witness :
  ∃ p', pymon_at (world (use_item 0%nat "apple" "" packed)) 0%nat = Some p' ∧
        2 ≤ energy p' ≤ 3.
Proof.
  assert (Hp : pymon_at packed 0%nat
               = Some (kimimon_with [potion; binocular; apple] 2))
    by (vm_compute; reflexivity).
  destruct (use_item_energy_cap (text:=ascii_text)
        0%nat "apple" "" packed _ Hp ltac:(simpl; lia))
    as (p' & Hp' & He & _).
  exists p'. split; [exact Hp'|exact He].
Defined.

Lemma pick_item_moves_witness :
  ∃ l', item_remove apple [statue; apple] = Some l' ∧
    _inventory <$> pymon_at (world (pick_item 0%nat "Apple" orchard)) 0%nat
      = Some [apple] ∧
    items <$> locs (world (pick_item 0%nat "Apple" orchard)) !! 0%nat = Some l'.
Proof.
  assert (Hp : pymon_at orchard 0%nat = Some (kimimon_with [] 3))
    by (vm_compute; reflexivity).
  assert (Hl : ∃ l, locs orchard !! 0%nat = Some l ∧ items l = [statue; apple])
    by (eexists; split; reflexivity).
  destruct Hl as (l & Hl & Hit).
  assert (Hf : find_item "Apple" (items l) = Some apple)
    by (rewrite Hit; vm_compute; reflexivity).
  destruct (pick_item_moves (text:=ascii_text) 0%nat "Apple" orchard _ 0%nat l
              apple Hp eq_refl Hl Hf eq_refl)
    as (l' & Hrem & _ & _ & Hinv & Hroom & _).
  exists l'. rewrite Hit in Hrem. split; [exact Hrem|].
  split; [rewrite Hinv; reflexivity|exact Hroom].
Defined.

Lemma pick_item_refused_witness :
  pick_item 0%nat "statue" orchard
  = mkRun (Ok tt) orchard ["statue cannot be picked up."].
Proof.
  assert (Hp : pymon_at orchard 0%nat = Some (kimimon_with [] 3))
    by (vm_compute; reflexivity).
  assert (Hl : ∃ l, locs orchard !! 0%nat = Some l ∧ items l = [statue; apple])
    by (eexists; split; reflexivity).
  destruct Hl as (l & Hl & Hit).
  assert (Hf : find_item "statue" (items l) = Some statue)
    by (rewrite Hit; vm_compute; reflexivity).
  rewrite (pick_item_refused (text:=ascii_text)
        0%nat "statue" orchard _ 0%nat l Hp eq_refl Hl);
    rewrite Hf; done.
Defined.

Lemma select_position_switches_witness :
  active (select_benched_pymon kimimon (Some 2) two_pets) = Some 5%nat ∧
  pets <$> pymon_at (world (select_benched_pymon kimimon (Some 2) two_pets)) 0%nat
  = Some [4; 0]%nat.
Proof.
  destruct two_pets_bench as (p & Hp & Hpets & Hall).
  assert (Hs : ∃ s, objs two_pets !! 5%nat = Some s) by (vm_compute; by eexists).
  destruct Hs as [s Hs].
  destruct (select_position_switches kimimon 2 two_pets p 5%nat s Hp Hall
              ltac:(rewrite Hpets; simpl; lia) ltac:(by rewrite Hpets) Hs)
    as (Ha & _ & _ & Hb).
  split; [exact Ha|]. rewrite Hpets in Hb. exact Hb.
Defined.

Lemma select_position_refused_witness :
  result (select_benched_pymon kimimon (Some 3) two_pets) = Ok kimimon ∧
  world (select_benched_pymon kimimon (Some 3) two_pets) = two_pets.
Proof.
  destruct two_pets_bench as (p & Hp & Hpets & Hall).
  destruct (select_position_refused kimimon (Some 3) two_pets p Hp Hall
              ltac:(by rewrite Hpets) ltac:(rewrite Hpets; simpl; lia))
    as (Ha & Hb & _).
  split; [exact Ha|exact Hb].
Defined.

Lemma select_empty_bench_witness :
  select_benched_pymon kimimon (Some 1) forest_cave
  = mkRun (Ok kimimon) forest_cave ["You dont have any other Pymon"].
Proof.
  exact (select_empty_bench kimimon (Some 1) forest_cave _ eq_refl eq_refl).
Defined.

Lemma immunity_outlives_battles_witness :
  ∃ p', pymon_at (world (commands kimimon win_then_lose
                           (world (use_item 0%nat "magic potion" "" packed))))
          0%nat = Some p' ∧ immunity p' = true.
Proof.
  assert (Hp : pymon_at (world (use_item 0%nat "magic potion" "" packed))
                 (current_pymon kimimon)
               = Some (set_immunity true (kimimon_with [binocular; apple] 2)))
    by (vm_compute; reflexivity).
  destruct (immunity_outlives_battles (text:=ascii_text)
        win_then_lose kimimon _ _ Hp)
    as (p' & Hp' & Hi).
  exists p'. split; [exact Hp'|exact Hi].
Defined.

